(** * Heredity: exact inference over a family pedigree

    A shallow embedding of [src/heredity/heredity.py]: the conditional
    probability tables [PROBS], the enumeration of hypotheses in [main],
    [powerset], [joint_probability] (with its local helper [pass_down]),
    [update] and [normalize].

    Numbers.  The program computes with Python floats.  The embedding is
    written once, over a small interface [Arith] of the arithmetic the
    program uses, and is read at two instances:
    - [Q_arith], exact rational arithmetic: the mathematical reading of the
      program, in which the general theorems are proved;
    - [float_arith], IEEE 754 binary64 (Rocq's primitive floats), which is
      what a Python float is.  It is used to evaluate the program on
      concrete pedigrees where the order in which Python iterates a set
      cannot change the result: a pedigree of one person, a set of at most
      two factors.

    Containers.  The pedigree [people] (a dict keyed by name) is a
    [gmap string person]; the sets of names [one_gene], [two_genes],
    [have_trait] are [gset string]; the table [probabilities], a dict that
    the program only ever traverses, is the list of its items; the Python
    [set] of floats built by [joint_probability] is a duplicate-free list.

    Failure.  A function that can raise returns an [option]; [None] stands
    for the exception ([KeyError], [TypeError] on a [None] operand,
    [ZeroDivisionError]). *)

From Stdlib Require Import QArith Qabs Lqa.
From Stdlib Require Import PrimFloat.
From Stdlib Require Uint63.
From stdpp Require Import gmap strings list.

Set Warnings "-inexact-float,-clear-no-such-hyp".

(** ** Arithmetic *)

Class Arith (T : Type) := {
  lit : Q → T;            (* the value of a numeric literal *)
  num_add : T → T → T;
  num_sub : T → T → T;
  num_mul : T → T → T;
  num_div : T → T → T;    (* only reached with a non-zero divisor *)
  num_eqb : T → T → bool  (* Python's [==] on numbers *)
}.
Arguments lit {T _} _%_Q.

Declare Scope num_scope.
Delimit Scope num_scope with num.
Infix "+" := num_add : num_scope.
Infix "-" := num_sub : num_scope.
Infix "*" := num_mul : num_scope.
Infix "/" := num_div : num_scope.

#[export] Instance Q_arith : Arith Q := {
  lit q := q;
  num_add := Qplus;
  num_sub := Qminus;
  num_mul := Qmult;
  num_div := Qdiv;
  num_eqb := Qeq_bool
}.

(** A decimal literal [n/d] denotes the binary64 number nearest to it; so
    does the correctly rounded quotient of the integers [n] and [d], both
    of which are exact in binary64. *)
Definition float_of_Z (z : Z) : PrimFloat.float :=
  PrimFloat.of_uint63 (Uint63.of_Z z).

#[export] Instance float_arith : Arith PrimFloat.float := {
  lit q := PrimFloat.div (float_of_Z (Qnum q)) (float_of_Z (Zpos (Qden q)));
  num_add := PrimFloat.add;
  num_sub := PrimFloat.sub;
  num_mul := PrimFloat.mul;
  num_div := PrimFloat.div;
  num_eqb := PrimFloat.eqb
}.

(** ** The pedigree *)

Record person := {
  name : string;
  mother : option string;
  father : option string;
  trait : option bool
}.

(** [x in s] for a parent reference [x], which is a name or Python's
    [None]; [None] is a member of no set of names. *)
Definition in_set (x : option string) (s : gset string) : bool :=
  match x with
  | Some n => bool_decide (n ∈ s)
  | None => false
  end.

(** [2 if x in two_genes else 1 if x in one_gene else 0] *)
Definition gene_count (x : option string) (one_gene two_genes : gset string) : Z :=
  if in_set x two_genes then 2 else if in_set x one_gene then 1 else 0.

(** ** [powerset] *)

(** [itertools.combinations(l, r)]: the [r]-element subsequences of [l], in
    lexicographic order of positions. *)
Fixpoint combinations {A} (l : list A) (r : nat) {struct l} : list (list A) :=
  match r with
  | O => [[]]
  | S r' =>
      match l with
      | [] => []
      | x :: l' => (cons x <$> combinations l' r') ++ combinations l' r
      end
  end.

(** [chain.from_iterable(combinations(l, r) for r in range(len(l) + 1))] *)
Definition chain_combinations {A} (l : list A) : list (list A) :=
  r ← seq 0 (S (length l)); combinations l r.

Definition powerset (s : gset string) : list (gset string) :=
  let s := elements s in
  list_to_set <$> chain_combinations s.

(** ** The enumeration of [main] *)

(** A hypothesis: [(one_gene, two_genes, have_trait)]. *)
Definition hypothesis : Type := gset string * gset string * gset string.

(** [fails_evidence].  [names] is [set(people)], so [people[person]] is the
    record stored under [person]: the generator ranges over the items of
    [people]. *)
Definition fails_evidence (people : gmap string person) (have_trait : gset string) : bool :=
  existsb (λ '(person, r),
    match trait r with
    | Some t => negb (Bool.eqb t (bool_decide (person ∈ have_trait)))
    | None => false
    end) (map_to_list people).

(** The two inner loops of [main]: the pairs [(one_gene, two_genes)]. *)
Definition gene_assignments (names : gset string) : list (gset string * gset string) :=
  one_gene ← powerset names;
  two_genes ← powerset (names ∖ one_gene);
  [(one_gene, two_genes)].

(** The loop nest of [main] with the evidence check left out: every
    hypothesis the outer loop considers. *)
Definition hypothesis_space (names : gset string) : list hypothesis :=
  have_trait ← powerset names;
  '(one_gene, two_genes) ← gene_assignments names;
  [(one_gene, two_genes, have_trait)].

(** The loop nest of [main]: the hypotheses that reach the loop body, in
    order ([continue] skips a [have_trait] that fails the evidence). *)
Definition hypotheses (people : gmap string person) : list hypothesis :=
  let names := dom people in
  have_trait ← powerset names;
  if fails_evidence people have_trait then []
  else
    '(one_gene, two_genes) ← gene_assignments names;
    [(one_gene, two_genes, have_trait)].

(** A [for] loop whose body can raise. *)
Fixpoint foldlM {S B} (body : S → B → option S) (s : S) (l : list B) : option S :=
  match l with
  | [] => Some s
  | x :: l' => s' ← body s x; foldlM body s' l'
  end.

Section Heredity.
Context {T : Type} `{Arith T}.
Local Open Scope num_scope.

(** ** [PROBS] *)

Definition PROBS_gene (genes : Z) : option T :=
  if (genes =? 2)%Z then Some (lit 0.01)
  else if (genes =? 1)%Z then Some (lit 0.03)
  else if (genes =? 0)%Z then Some (lit 0.96)
  else None.

Definition PROBS_trait (genes : Z) (t : bool) : option T :=
  if (genes =? 2)%Z then Some (if t then lit 0.65 else lit 0.35)
  else if (genes =? 1)%Z then Some (if t then lit 0.56 else lit 0.44)
  else if (genes =? 0)%Z then Some (if t then lit 0.01 else lit 0.99)
  else None.

Definition PROBS_mutation : T := lit 0.01.

(** ** [joint_probability] *)

(** [pass_down] returns Python's [None] when no branch is taken. *)
Definition pass_down (genes : Z) (passing : bool) : option T :=
  if (genes =? 2)%Z && passing || (genes =? 0)%Z && negb passing then
    Some (lit 1 - PROBS_mutation)
  else if (genes =? 2)%Z && negb passing || (genes =? 0)%Z && passing then
    Some PROBS_mutation
  else if (genes =? 1)%Z then
    Some (lit 0.5)
  else None.

(** [probabilities.add(x)] on a set of numbers: a number equal to one
    already in the set is not added.  The list keeps the order of
    insertion; the order in which Python iterates the set is not specified,
    and a product in exact arithmetic does not depend on it. *)
Definition set_add (x : T) (s : list T) : list T :=
  if existsb (num_eqb x) s then s else s ++ [x].

(** The body of the loop of [joint_probability] for one person: the number
    it adds to the set.  [mother is father is None] holds exactly when both
    are [None]. *)
Definition person_probability (name : string) (r : person)
    (one_gene two_genes have_trait : gset string) : option T :=
  match mother r, father r with
  | None, None =>
      let genes := gene_count (Some name) one_gene two_genes in
      g ← PROBS_gene genes;
      t ← PROBS_trait genes (bool_decide (name ∈ have_trait));
      Some (g * t)
  | _, _ =>
      let mg := gene_count (mother r) one_gene two_genes in
      let fg := gene_count (father r) one_gene two_genes in
      geneChance ←
        (if bool_decide (name ∈ two_genes) then
           a ← pass_down mg true; b ← pass_down fg true; Some (a * b)
         else if bool_decide (name ∈ one_gene) then
           a ← pass_down mg true; b ← pass_down fg false;
           c ← pass_down mg false; d ← pass_down fg true;
           Some (a * b + c * d)
         else
           a ← pass_down mg false; b ← pass_down fg false; Some (a * b));
      let genes := gene_count (Some name) one_gene two_genes in
      traitChance ← PROBS_trait genes (bool_decide (name ∈ have_trait));
      Some (geneChance * traitChance)
  end.

Definition joint_probability (people : gmap string person)
    (one_gene two_genes have_trait : gset string) : option T :=
  probabilities ←
    foldlM (λ probabilities '(name, r),
      p ← person_probability name r one_gene two_genes have_trait;
      Some (set_add p probabilities)) [] (map_to_list people);
  Some (foldl num_mul (lit 1) probabilities).

(** ** The table [probabilities], [update] and [normalize] *)

Record gene_dist := { g2 : T; g1 : T; g0 : T }.
Record trait_dist := { tTrue : T; tFalse : T }.
Record entry := { gene : gene_dist; trait_ : trait_dist }.

Definition init_probabilities (people : gmap string person) : list (string * entry) :=
  (λ '(person, _),
    (person, {| gene := {| g2 := lit 0; g1 := lit 0; g0 := lit 0 |};
                trait_ := {| tTrue := lit 0; tFalse := lit 0 |} |}))
  <$> map_to_list people.

(** [d[genes] += p] *)
Definition gene_add (genes : Z) (p : T) (d : gene_dist) : option gene_dist :=
  if (genes =? 2)%Z then Some {| g2 := g2 d + p; g1 := g1 d; g0 := g0 d |}
  else if (genes =? 1)%Z then Some {| g2 := g2 d; g1 := g1 d + p; g0 := g0 d |}
  else if (genes =? 0)%Z then Some {| g2 := g2 d; g1 := g1 d; g0 := g0 d + p |}
  else None.

(** [d[t] += p] *)
Definition trait_add (t : bool) (p : T) (d : trait_dist) : trait_dist :=
  if t then {| tTrue := tTrue d + p; tFalse := tFalse d |}
  else {| tTrue := tTrue d; tFalse := tFalse d + p |}.

Definition update (probabilities : list (string * entry))
    (one_gene two_genes have_trait : gset string) (p : T) : option (list (string * entry)) :=
  mapM (λ '(person, e),
    let genes := gene_count (Some person) one_gene two_genes in
    g ← gene_add genes p (gene e);
    Some (person, {| gene := g;
                     trait_ := trait_add (bool_decide (person ∈ have_trait)) p (trait_ e) |}))
  probabilities.

(** [sum(d.values())] starts from the integer [0]. *)
Definition gene_total (d : gene_dist) : T := lit 0 + g2 d + g1 d + g0 d.
Definition trait_total (d : trait_dist) : T := lit 0 + tTrue d + tFalse d.

(** [x /= total] raises [ZeroDivisionError] when [total == 0]. *)
Definition normalize_gene (d : gene_dist) : option gene_dist :=
  let total := gene_total d in
  if num_eqb total (lit 0) then None
  else Some {| g2 := g2 d / total; g1 := g1 d / total; g0 := g0 d / total |}.

Definition normalize_trait (d : trait_dist) : option trait_dist :=
  let total := trait_total d in
  if num_eqb total (lit 0) then None
  else Some {| tTrue := tTrue d / total; tFalse := tFalse d / total |}.

Definition normalize (probabilities : list (string * entry)) : option (list (string * entry)) :=
  mapM (λ '(person, e),
    g ← normalize_gene (gene e);
    t ← normalize_trait (trait_ e);
    Some (person, {| gene := g; trait_ := t |})) probabilities.

(** ** [main], from the pedigree to the normalized table *)

Definition accumulate (people : gmap string person)
    (probabilities : list (string * entry)) (hs : list hypothesis) : option (list (string * entry)) :=
  foldlM (λ probabilities '(one_gene, two_genes, have_trait),
    p ← joint_probability people one_gene two_genes have_trait;
    update probabilities one_gene two_genes have_trait p) probabilities hs.

Definition main (people : gmap string person) : option (list (string * entry)) :=
  probabilities ← accumulate people (init_probabilities people) (hypotheses people);
  normalize probabilities.

End Heredity.

Arguments gene_dist : clear implicits.
Arguments trait_dist : clear implicits.
Arguments entry : clear implicits.

(** ** [load_data] *)

(** A row as [csv.DictReader] yields it for a line that has the four
    fields: the strings under "name", "mother", "father" and "trait". *)
Record row := {
  row_name : string;
  row_mother : string;
  row_father : string;
  row_trait : string
}.

(** [s or None]: the empty string is false. *)
Definition or_None (s : string) : option string :=
  if String.eqb s "" then None else Some s.

(** The record stored for a row. *)
Definition person_of_row (r : row) : person :=
  {| name := row_name r;
     mother := or_None (row_mother r);
     father := or_None (row_father r);
     trait := if String.eqb (row_trait r) "1" then Some true
              else if String.eqb (row_trait r) "0" then Some false
              else None |}.

(** The loop of [load_data] over the rows of the file. *)
Definition load_data (rows : list row) : gmap string person :=
  foldl (λ data r, <[row_name r := person_of_row r]> data) ∅ rows.

(** ** Pedigrees used below *)

Definition founder (n : string) (t : option bool) : person :=
  {| name := n; mother := None; father := None; trait := t |}.

Definition child (n m f : string) (t : option bool) : person :=
  {| name := n; mother := Some m; father := Some f; trait := t |}.

(** A single founder, no trait observed. *)
Definition single_founder (n : string) : gmap string person :=
  {[ n := founder n None ]}.

(** Two founders and their child, no trait observed. *)
Definition family : gmap string person :=
  <[ "Harry" := child "Harry" "Lily" "James" None ]>
  (<[ "James" := founder "James" None ]> {[ "Lily" := founder "Lily" None ]}).

(** A child whose mother is recorded and whose father is not, and whose
    mother is not a person of the pedigree. *)
Definition half_specified : gmap string person :=
  {[ "Harry" := {| name := "Harry"; mother := Some "Lily"; father := None;
                   trait := Some true |} ]}.

(** A single founder whose trait is observed. *)
Definition observed_founder (n : string) (b : bool) : gmap string person :=
  {[ n := founder n (Some b) ]}.

(** Two founders, no trait observed. *)
Definition two_founders : gmap string person :=
  <[ "James" := founder "James" None ]> {[ "Lily" := founder "Lily" None ]}.

(** ** Notions used in the statements *)

(** The sublists of [l], by recursion on [l]. *)
Fixpoint sublists {A} (l : list A) : list (list A) :=
  match l with
  | [] => [[]]
  | x :: l' => (cons x <$> sublists l') ++ sublists l'
  end.

(** A factor of the product: a probability strictly between 0 and 1. *)
Definition proper_factor (q : Q) : Prop := (0 < q ∧ q < 1)%Q.

Definition gene_sum (d : gene_dist Q) : Q := (g2 d + g1 d + g0 d)%Q.
Definition trait_sum (d : trait_dist Q) : Q := (tTrue d + tFalse d)%Q.

(** Both distributions of an entry add up to [t]. *)
Definition totals (t : Q) (x : string * entry Q) : Prop :=
  (gene_sum (gene x.2) == t ∧ trait_sum (trait_ x.2) == t)%Q.

(** The malformed pedigrees of the specification: some parent reference
    names nobody in the pedigree, or some person has exactly one recorded
    parent.  The program computes nothing of the kind. *)
Definition resolves (people : gmap string person) (x : option string) : bool :=
  match x with
  | Some n => bool_decide (n ∈ dom people)
  | None => true
  end.

Definition malformed (people : gmap string person) : bool :=
  existsb (λ '(_, r),
    negb (resolves people (mother r)) || negb (resolves people (father r)) ||
    xorb (bool_decide (is_Some (mother r))) (bool_decide (is_Some (father r))))
  (map_to_list people).

(** Entries and tables of rationals that are equal cell by cell. *)
Definition entry_eq (e e' : entry Q) : Prop :=
  (g2 (gene e) == g2 (gene e') ∧ g1 (gene e) == g1 (gene e') ∧
   g0 (gene e) == g0 (gene e') ∧
   tTrue (trait_ e) == tTrue (trait_ e') ∧ tFalse (trait_ e) == tFalse (trait_ e'))%Q.


(** What [update] makes of one item of the table ([gene_add] returns a
    distribution for the gene counts 0, 1 and 2, the only ones that occur). *)
Definition updated {T} `{Arith T} (og tg ht : gset string) (p : T)
    (x : string * entry T) : string * entry T :=
  (x.1, {| gene := default (gene x.2)
                     (gene_add (gene_count (Some x.1) og tg) p (gene x.2));
           trait_ := trait_add (bool_decide (x.1 ∈ ht)) p (trait_ x.2) |}).

(** The table after the hypotheses of the list [hs] have been accumulated
    into [probs], one after the other. *)
Definition accumulated (people : gmap string person)
    (probs : list (string * entry Q)) (hs : list hypothesis) : list (string * entry Q) :=
  foldl (λ t '(og, tg, ht),
    updated og tg ht (default 0%Q (joint_probability people og tg ht)) <$> t) probs hs.

(** No two numbers of the list are equal. *)
Fixpoint distinct (l : list Q) : Prop :=
  match l with
  | [] => True
  | x :: l' => Forall (λ y, ¬ (x == y)%Q) l' ∧ distinct l'
  end.

(** The hypothesis [h] with person [n] moved to gene count [g] and trait
    [t]. *)
Definition with_person (n : string) (g : Z) (t : bool) (h : hypothesis) : hypothesis :=
  let '(og, tg, ht) := h in
  (if (g =? 1)%Z then og ∪ {[n]} else og ∖ {[n]},
   if (g =? 2)%Z then tg ∪ {[n]} else tg ∖ {[n]},
   if t then ht ∪ {[n]} else ht ∖ {[n]}).

(** The factor of person [n] under the hypothesis [h]. *)
Definition factor_under {T} `{Arith T} (n : string) (r : person) (h : hypothesis) : option T :=
  person_probability n r h.1.1 h.1.2 h.2.

(** The value of the trait that contradicts the observation has weight 0. *)
Definition observed_ok (people : gmap string person) (x : string * entry Q) : Prop :=
  ∀ r b, people !! x.1 = Some r → trait r = Some b →
         ((if b then tFalse (trait_ x.2) else tTrue (trait_ x.2)) == 0)%Q.

(** No value of the item is negative. *)
Definition nonnegative (x : string * entry Q) : Prop :=
  (0 <= g2 (gene x.2) ∧ 0 <= g1 (gene x.2) ∧ 0 <= g0 (gene x.2) ∧
   0 <= tTrue (trait_ x.2) ∧ 0 <= tFalse (trait_ x.2))%Q.


(** * Proof automation *)

(** Decide membership of [n] in the sets [∅] and [{[n]}], and evaluate. *)
Ltac eval_members n := repeat (first
  [ rewrite (bool_decide_eq_true_2 (n ∈ ({[n]} : gset string))) by set_solver
  | rewrite (bool_decide_eq_false_2 (n ∈ (∅ : gset string))) by set_solver
  | progress cbn
  | progress unfold update, gene_count, in_set, person_probability ]).

(** * The enumeration *)

Section combinations.
Context {A : Type}.
Implicit Types (l k : list A) (x : A).

Lemma combinations_nil r : combinations (@nil A) (S r) = [].
Proof. reflexivity. Qed.

Lemma combinations_0 l : combinations l 0 = [[]].
Proof. by destruct l. Qed.

Lemma bind_nil_const {B} (l : list B) : l ≫= (λ _, @nil (list A)) = [].
Proof. by induction l. Qed.

Lemma fmap_bind_list {B C D} (h : C → D) (f : B → list C) (l : list B) :
  h <$> (l ≫= f) = l ≫= (λ r, h <$> f r).
Proof. induction l as [|r l IH]; csimpl; [done |]. by rewrite fmap_app, IH. Qed.

Lemma bind_app_Permutation {B C} (f g : B → list C) (l : list B) :
  l ≫= (λ r, f r ++ g r) ≡ₚ (l ≫= f) ++ (l ≫= g).
Proof.
  induction l as [|r l IH]; csimpl; [done |].
  rewrite IH. rewrite <- !(assoc_L (++)). f_equiv.
  rewrite !(assoc_L (++)). f_equiv. apply Permutation_app_comm.
Qed.

(** [combinations l r] for [r] up to [m]. *)
Lemma chain_upto_sublists l m :
  length l ≤ m → seq 0 (S m) ≫= combinations l ≡ₚ sublists l.
Proof.
  revert m. induction l as [|x l IH]; intros m Hm.
  - cbn [seq]. rewrite bind_cons, <- fmap_S_seq, list_fmap_bind.
    rewrite (list_bind_ext _ (λ _, []) _ (seq 0 m)) by done.
    by rewrite bind_nil_const.
  - destruct m as [|m]; [simpl in Hm; lia |]. simpl in Hm.
    change (seq 0 (S (S m))) with (0 :: seq 1 (S m)).
    rewrite bind_cons, <- fmap_S_seq, list_fmap_bind.
    rewrite (list_bind_ext _ (λ r, (cons x <$> combinations l r) ++ combinations l (S r))
               _ (seq 0 (S m))) by done.
    rewrite bind_app_Permutation. cbn [sublists].
    rewrite <- (IH m) at 1 by lia. rewrite <- (IH (S m)) by lia.
    rewrite fmap_bind_list.
    change (seq 0 (S (S m))) with (0 :: seq 1 (S m)).
    rewrite (bind_cons _ 0), <- fmap_S_seq, list_fmap_bind, !combinations_0.
    exact (Permutation_middle _ _ _).
Qed.

Lemma chain_combinations_sublists l : chain_combinations l ≡ₚ sublists l.
Proof. by apply chain_upto_sublists. Qed.

Lemma elem_of_sublists l k : k ∈ sublists l ↔ k `sublist_of` l.
Proof.
  revert k. induction l as [|x l IH]; intros k; simpl.
  - by rewrite list_elem_of_singleton, sublist_nil_r.
  - rewrite elem_of_app, list_elem_of_fmap, sublist_cons_r, IH.
    
    split; [intros [(k' & -> & Hk%IH) | Hk] | intros [Hk | (k' & -> & Hk%IH)]]; eauto.
Qed.

Lemma length_sublists l : length (sublists l) = 2 ^ length l.
Proof.
  induction l as [|x l IH]; [done |].
  cbn [sublists length]. rewrite length_app, length_fmap, IH, Nat.pow_succ_r'. lia.
Qed.

Lemma NoDup_sublists l : NoDup l → NoDup (sublists l).
Proof.
  induction 1 as [|x l Hx Hl IH]; simpl; [apply NoDup_singleton |].
  apply NoDup_app. split_and!.
  - by apply (NoDup_fmap_2 _).
  - intros k (k' & -> & _)%list_elem_of_fmap Hk%elem_of_sublists.
    apply Hx, (sublist_subseteq _ _ Hk). left.
  - done.
Qed.

End combinations.

Section powerset.
Implicit Types (s X Y : gset string) (l k : list string).

Lemma list_to_set_sublist_inj l k1 k2 :
  NoDup l → k1 `sublist_of` l → k2 `sublist_of` l →
  list_to_set (C:=gset string) k1 = list_to_set k2 → k1 = k2.
Proof.
  intros Hl. revert k1 k2. induction Hl as [|x l Hx Hl IH]; intros k1 k2 H1 H2 E.
  - apply sublist_nil_r in H1, H2. congruence.
  - assert (∀ k, k `sublist_of` l → x ∉ k) as Hnot.
    { intros k Hk Hin. apply Hx, (sublist_subseteq _ _ Hk), Hin. }
    apply sublist_cons_r in H1 as [H1 | (k1' & -> & H1)];
      apply sublist_cons_r in H2 as [H2 | (k2' & -> & H2)].
    + by apply IH.
    + exfalso. apply (Hnot _ H1). apply (elem_of_list_to_set (C:=gset string)).
      rewrite E. set_solver.
    + exfalso. apply (Hnot _ H2). apply (elem_of_list_to_set (C:=gset string)).
      rewrite <- E. set_solver.
    + f_equal. apply IH; [done .. |]. apply set_eq. intros y.
      pose proof (Hnot _ H1). pose proof (Hnot _ H2).
      assert (y ∈ list_to_set (C:=gset string) (x :: k1') ↔
              y ∈ list_to_set (C:=gset string) (x :: k2')) as Hy by (by rewrite E).
      rewrite !elem_of_list_to_set, !elem_of_cons in Hy.
      rewrite !elem_of_list_to_set. naive_solver.
Qed.

Lemma powerset_sublists s : powerset s ≡ₚ list_to_set <$> sublists (elements s).
Proof. unfold powerset. by rewrite chain_combinations_sublists. Qed.

Lemma elem_of_powerset s X : X ∈ powerset s ↔ X ⊆ s.
Proof.
  rewrite powerset_sublists, list_elem_of_fmap. setoid_rewrite elem_of_sublists. split.
  - intros (k & -> & Hk) x Hx%elem_of_list_to_set.
    apply elem_of_elements, (sublist_subseteq _ _ Hk), Hx.
  - intros HX. exists (filter (λ x, x ∈ X) (elements s)). split.
    + apply set_eq. intros x.
      rewrite elem_of_list_to_set, list_elem_of_filter, elem_of_elements. set_solver.
    + apply sublist_filter.
Qed.

Lemma NoDup_powerset s : NoDup (powerset s).
Proof.
  rewrite powerset_sublists. apply NoDup_fmap_2_strong.
  - intros k1 k2 H1%elem_of_sublists H2%elem_of_sublists.
    apply (list_to_set_sublist_inj (elements s)); [apply NoDup_elements | done ..].
  - apply NoDup_sublists, NoDup_elements.
Qed.

Lemma length_powerset s : length (powerset s) = 2 ^ size s.
Proof. by rewrite powerset_sublists, length_fmap, length_sublists. Qed.

End powerset.

Section enumeration.
Implicit Types (names og tg ht : gset string).

Lemma elem_of_gene_assignments names og tg :
  (og, tg) ∈ gene_assignments names ↔ og ⊆ names ∧ tg ⊆ names ∖ og.
Proof.
  unfold gene_assignments. rewrite list_elem_of_bind. split.
  - intros (og' & (tg' & ?%list_elem_of_singleton & Htg%elem_of_powerset)%list_elem_of_bind
              & Hog%elem_of_powerset).
    by simplify_eq.
  - intros [Hog Htg]. exists og. rewrite list_elem_of_bind, elem_of_powerset. split; [| done].
    exists tg. by rewrite list_elem_of_singleton, elem_of_powerset.
Qed.

Lemma NoDup_gene_assignments names : NoDup (gene_assignments names).
Proof.
  apply NoDup_bind; [| | apply NoDup_powerset].
  - intros og1 og2 [og tg] _ _
      (? & ?%list_elem_of_singleton & _)%list_elem_of_bind
      (? & ?%list_elem_of_singleton & _)%list_elem_of_bind.
    congruence.
  - intros og _. apply NoDup_bind; [| | apply NoDup_powerset].
    + intros tg1 tg2 [? tg] _ _ ?%list_elem_of_singleton ?%list_elem_of_singleton.
      congruence.
    + intros. apply NoDup_singleton.
Qed.

Lemma length_bind {A B} (f : A → list B) (l : list A) :
  length (l ≫= f) = sum_list_with (λ x, length (f x)) l.
Proof. induction l as [|x l IH]; csimpl; [done |]. by rewrite length_app, IH. Qed.

Lemma sum_list_with_ext_in {A} (f g : A → nat) (l : list A) :
  (∀ x, x ∈ l → f x = g x) → sum_list_with f l = sum_list_with g l.
Proof.
  induction l as [|x l IH]; intros Hfg; simpl; [done |].
  rewrite Hfg, IH; [done | | left]. intros y Hy. apply Hfg. by right.
Qed.

Lemma sum_list_with_fmap {A B} (f : B → nat) (h : A → B) (l : list A) :
  sum_list_with f (h <$> l) = sum_list_with (f ∘ h) l.
Proof. induction l as [|x l IH]; simpl; [done |]. f_equal. exact IH. Qed.

(** Each of [n] elements is left out, or put in the sublist, or counted
    twice: 3 ^ n in all. *)
Lemma sum_sublists_pow {A} (l : list A) (c : nat) :
  sum_list_with (λ k, 2 ^ (c + length l - length k)) (sublists l) = 2 ^ c * 3 ^ length l.
Proof.
  revert c. induction l as [|x l IH]; intros c.
  - simpl. replace (c + 0 - 0) with c by lia. lia.
  - cbn [sublists length]. rewrite sum_list_with_app, (sum_list_with_fmap _ (cons x)).
    rewrite (sum_list_with_ext_in _ (λ k, 2 ^ (c + length l - length k))).
    2:{ intros k _. simpl. f_equal. lia. }
    replace (c + S (length l)) with (S c + length l) by lia.
    rewrite !IH. rewrite !Nat.pow_succ_r'. lia.
Qed.

Lemma length_gene_assignments names : length (gene_assignments names) = 3 ^ size names.
Proof.
  unfold gene_assignments. rewrite length_bind.
  rewrite (sum_list_with_ext_in _ (λ og, 2 ^ (size names - size og))).
  2:{ intros og Hog%elem_of_powerset. rewrite length_bind.
      rewrite (sum_list_with_ext_in _ (λ _, 1)) by done.
      rewrite <- (size_difference names og Hog), <- length_powerset.
      generalize (powerset (names ∖ og)). intros l. induction l; simpl; lia. }
  rewrite powerset_sublists, sum_list_with_fmap.
  rewrite (sum_list_with_ext_in _ (λ k, 2 ^ (0 + length (elements names) - length k))).
  - rewrite sum_sublists_pow. unfold size, set_size. simpl. lia.
  - intros k Hk%elem_of_sublists. simpl. f_equal.
    rewrite size_list_to_set; [done |].
    apply (sublist_NoDup _ (elements names)); [apply NoDup_elements | done].
Qed.

Lemma elem_of_hypothesis_space names og tg ht :
  (og, tg, ht) ∈ hypothesis_space names ↔
  og ⊆ names ∧ tg ⊆ names ∧ og ## tg ∧ ht ⊆ names.
Proof.
  unfold hypothesis_space. rewrite list_elem_of_bind. split.
  - intros (ht' & ([og' tg'] & ?%list_elem_of_singleton &
                   [??]%elem_of_gene_assignments)%list_elem_of_bind & ?%elem_of_powerset).
    simplify_eq. set_solver.
  - intros (? & ? & ? & ?). exists ht. rewrite elem_of_powerset. split; [| done].
    apply list_elem_of_bind. exists (og, tg).
    rewrite list_elem_of_singleton, elem_of_gene_assignments. set_solver.
Qed.

Lemma NoDup_hypothesis_space names : NoDup (hypothesis_space names).
Proof.
  apply NoDup_bind; [| | apply NoDup_powerset].
  - intros ht1 ht2 [[og tg] ht] _ _
      ([??] & ?%list_elem_of_singleton & _)%list_elem_of_bind
      ([??] & ?%list_elem_of_singleton & _)%list_elem_of_bind.
    congruence.
  - intros ht _. apply NoDup_bind; [| | apply NoDup_gene_assignments].
    + intros [??] [??] [[??]?] _ _ ?%list_elem_of_singleton ?%list_elem_of_singleton.
      congruence.
    + intros [??] _. apply NoDup_singleton.
Qed.

Lemma length_hypothesis_space names :
  length (hypothesis_space names) = 3 ^ size names * 2 ^ size names.
Proof.
  unfold hypothesis_space. rewrite length_bind.
  rewrite (sum_list_with_ext_in _ (λ _, 3 ^ size names)).
  - rewrite <- length_powerset. generalize (powerset names). intros l.
    induction l; simpl; lia.
  - intros ht _. rewrite length_bind, <- length_gene_assignments.
    generalize (gene_assignments names). intros l. induction l as [|[??] l IH]; simpl; lia.
Qed.

(** The evidence check of [main] keeps, of the hypotheses considered,
    those whose [have_trait] passes it. *)
Lemma hypotheses_filter (people : gmap string person) :
  hypotheses people =
  filter (λ h : hypothesis, fails_evidence people h.2 = false) (hypothesis_space (dom people)).
Proof.
  unfold hypotheses, hypothesis_space. generalize (powerset (dom people)). intros l.
  induction l as [|ht l IH]; csimpl; [done |].
  rewrite filter_app, <- IH. f_equal.
  generalize (gene_assignments (dom people)). intros ga.
  destruct (fails_evidence people ht) eqn:E.
  - induction ga as [|[og tg] ga IHga]; csimpl; [done |].
    rewrite filter_cons_False; [done | simpl; congruence].
  - induction ga as [|[og tg] ga IHga]; csimpl; [done |].
    rewrite filter_cons_True by done. by f_equal.
Qed.

End enumeration.

(** * Exact arithmetic: the joint probability *)

Section exact.
Implicit Types (people : gmap string person) (og tg ht : gset string) (p q : Q).
Local Open Scope Q_scope.

Lemma person_probability_proper (n : string) (r : person) og tg ht :
  ∃ q : Q, person_probability n r og tg ht = Some q ∧ proper_factor q.
Proof.
  unfold person_probability, gene_count, in_set, proper_factor.
  destruct (bool_decide (n ∈ tg)), (bool_decide (n ∈ og)), (bool_decide (n ∈ ht));
    destruct (mother r) as [m|], (father r) as [f|];
    repeat match goal with
           | |- context [bool_decide ?P] => destruct (bool_decide P)
           end;
    (eexists; split; [reflexivity | split; reflexivity]).
Qed.

Lemma foldl_mul_proper (s : list Q) (a : Q) :
  Forall proper_factor s → 0 < a →
  0 < foldl Qmult a s ∧ foldl Qmult a s <= a ∧ (s ≠ [] → foldl Qmult a s < a).
Proof.
  intros Hs. revert a. induction Hs as [|x s [Hx0 Hx1] Hs IH]; intros a Ha; simpl.
  - split; [done |]. split; [apply Qle_refl | done].
  - assert (0 < a * x ∧ a * x < a) as [H0 H1] by nra.
    destruct (IH _ H0) as (I0 & I1 & _). split; [done |].
    split; [| intros _]; lra.
Qed.

Lemma set_add_proper (x : Q) (s : list Q) :
  proper_factor x → Forall proper_factor s →
  Forall proper_factor (set_add x s) ∧ set_add x s ≠ [].
Proof.
  intros Hx Hs. unfold set_add. destruct (existsb _ s) eqn:E.
  - split; [done |]. intros ->. discriminate.
  - split; [by apply Forall_app; split; [| constructor] |]. by destruct s.
Qed.

Lemma factors_proper (l : list (string * person)) og tg ht (s : list Q) :
  Forall proper_factor s →
  ∃ s' : list Q,
    foldlM (λ probabilities '(n, r),
      p ← person_probability n r og tg ht;
      Some (set_add p probabilities)) s l = Some s' ∧
    Forall proper_factor s' ∧ (s' = [] ↔ s = [] ∧ l = []).
Proof.
  revert s. induction l as [|[n r] l IH]; intros s Hs; simpl.
  - exists s. naive_solver.
  - destruct (person_probability_proper n r og tg ht) as (q & -> & Hq). simpl.
    destruct (set_add_proper q s Hq Hs) as [Hs' Hne].
    destruct (IH _ Hs') as (s' & -> & ? & Hnil). exists s'. naive_solver.
Qed.

Lemma joint_probability_proper people og tg ht :
  ∃ p : Q, joint_probability people og tg ht = Some p ∧
    0 < p ∧ p <= 1 ∧ (p == 1 ↔ people = ∅).
Proof.
  unfold joint_probability.
  destruct (factors_proper (map_to_list people) og tg ht [] (Forall_nil_2 _))
    as (s & -> & Hs & Hnil).
  simpl. eexists. split; [reflexivity |].
  destruct (foldl_mul_proper s 1 Hs) as (H0 & H1 & Hlt); [reflexivity |].
  split; [done |]. split; [done |]. rewrite <- map_to_list_empty_iff. split.
  - intros E. destruct s as [|x s]; [naive_solver |].
    specialize (Hlt ltac:(done)). lra.
  - intros El. assert (s = []) as -> by naive_solver. reflexivity.
Qed.

(** ** The table: every entry's two distributions have the same total *)

Lemma gene_total_sum (d : gene_dist Q) : gene_total d == gene_sum d.
Proof. unfold gene_total, gene_sum. simpl. ring. Qed.

Lemma trait_total_sum (d : trait_dist Q) : trait_total d == trait_sum d.
Proof. unfold trait_total, trait_sum. simpl. ring. Qed.

Lemma init_probabilities_totals people :
  Forall (totals 0) (init_probabilities people) ∧
  (init_probabilities (T:=Q) people).*1 = (map_to_list people).*1.
Proof.
  unfold init_probabilities. induction (map_to_list people) as [|[n r] l [IH1 IH2]]; [done |].
  split; [constructor; [by split | done] | simpl; by f_equal].
Qed.

Lemma update_totals (probs : list (string * entry Q)) og tg ht (t p : Q) :
  Forall (totals t) probs →
  ∃ probs', update probs og tg ht p = Some probs' ∧
    Forall (totals (t + p)) probs' ∧ probs'.*1 = probs.*1.
Proof.
  unfold update. induction 1 as [|[n e] probs [Hg Ht] _ (probs' & IH & Hall & Hkeys)].
  - by exists [].
  - unfold gene_sum, trait_sum in Hg, Ht. simpl in Hg, Ht.
    cbn [mapM]. rewrite IH. unfold gene_count, in_set, gene_add, trait_add.
    destruct (bool_decide (n ∈ tg)), (bool_decide (n ∈ og)), (bool_decide (n ∈ ht));
      simpl; (eexists; split; [reflexivity |]);
      (split; [constructor; [| done] | simpl; by f_equal]);
      unfold totals, gene_sum, trait_sum; simpl; split; lra.
Qed.

Lemma accumulate_totals people (hs : list hypothesis)
    (probs : list (string * entry Q)) (t : Q) :
  Forall (totals t) probs →
  ∃ probs' t', accumulate people probs hs = Some probs' ∧
    Forall (totals t') probs' ∧ probs'.*1 = probs.*1 ∧
    t <= t' ∧ (hs ≠ [] → t < t') ∧ (hs = [] → probs' = probs).
Proof.
  unfold accumulate. revert probs t.
  induction hs as [|[[og tg] ht] hs IH]; intros probs t Hprobs.
  - exists probs, t. split_and!; [done .. | apply Qle_refl | done | done].
  - cbn [foldlM].
    destruct (joint_probability_proper people og tg ht) as (p & -> & Hp & _).
    destruct (update_totals probs og tg ht t p Hprobs) as (probs1 & Hup & H1 & K1).
    simpl. rewrite Hup. simpl.
    destruct (IH probs1 (t + p) H1) as (probs' & t' & -> & H' & K' & Hle & _).
    exists probs', t'. split_and!; [done | done | congruence | lra | intros _; lra | done].
Qed.

Lemma normalize_gene_Some (d : gene_dist Q) :
  ¬ gene_sum d == 0 → ∃ d', normalize_gene d = Some d' ∧ gene_sum d' == 1.
Proof.
  intros Hd. unfold normalize_gene. cbn [num_eqb num_div lit Q_arith].
  destruct (Qeq_bool (gene_total d) 0) eqn:E.
  - apply Qeq_bool_iff in E. rewrite gene_total_sum in E. done.
  - eexists. split; [reflexivity |]. unfold gene_sum at 1. cbn [g2 g1 g0].
    rewrite gene_total_sum. unfold gene_sum in *. field. done.
Qed.

Lemma normalize_trait_Some (d : trait_dist Q) :
  ¬ trait_sum d == 0 → ∃ d', normalize_trait d = Some d' ∧ trait_sum d' == 1.
Proof.
  intros Hd. unfold normalize_trait. cbn [num_eqb num_div lit Q_arith].
  destruct (Qeq_bool (trait_total d) 0) eqn:E.
  - apply Qeq_bool_iff in E. rewrite trait_total_sum in E. done.
  - eexists. split; [reflexivity |]. unfold trait_sum at 1. cbn [tTrue tFalse].
    rewrite trait_total_sum. unfold trait_sum in *. field. done.
Qed.

Lemma normalize_totals (probs : list (string * entry Q)) (t : Q) :
  ¬ t == 0 → Forall (totals t) probs →
  ∃ table, normalize probs = Some table ∧
    Forall (totals 1) table ∧ table.*1 = probs.*1.
Proof.
  intros Ht. unfold normalize.
  induction 1 as [|[n e] probs [Hg Htr] _ (table & IH & Hall & Hkeys)].
  - by exists [].
  - simpl in Hg, Htr. cbn [mapM]. rewrite IH.
    destruct (normalize_gene_Some (gene e)) as (g & -> & Hg1); [by rewrite Hg |].
    destruct (normalize_trait_Some (trait_ e)) as (tr & -> & Ht1); [by rewrite Htr |].
    simpl. eexists. split; [reflexivity |].
    split; [constructor; [by split | done] | simpl; by f_equal].
Qed.

(** A total of zero makes [normalize] raise. *)
Lemma normalize_zero (probs : list (string * entry Q)) :
  probs ≠ [] → Forall (totals 0) probs → normalize probs = None.
Proof.
  intros Hne Hall. destruct Hall as [|[n e] probs [Hg _] _]; [done |].
  change (gene_sum (gene e) == 0) in Hg.
  rewrite <- gene_total_sum in Hg. apply Qeq_bool_iff in Hg.
  unfold normalize. cbn [mapM]. unfold normalize_gene. cbn [num_eqb lit Q_arith].
  by rewrite Hg.
Qed.

(** [normalize] raises exactly when some distribution has total zero. *)
Lemma normalize_None (probs : list (string * entry Q)) :
  normalize probs = None ↔
  Exists (λ x, gene_total (gene x.2) == 0 ∨ trait_total (trait_ x.2) == 0) probs.
Proof.
  unfold normalize. rewrite mapM_None, !Exists_exists.
  apply exist_proper. intros [n e]. apply and_iff_compat_l.
  unfold normalize_gene, normalize_trait. cbn [num_eqb lit Q_arith snd].
  destruct (Qeq_bool (gene_total (gene e)) 0) eqn:Eg; cbn [mbind option_bind].
  { apply Qeq_bool_iff in Eg. by split; [left |]. }
  apply Qeq_bool_neq in Eg.
  destruct (Qeq_bool (trait_total (trait_ e)) 0) eqn:Et; cbn [mbind option_bind].
  { apply Qeq_bool_iff in Et. by split; [right |]. }
  apply Qeq_bool_neq in Et. split; [done | by intros [? | ?]].
Qed.

End exact.

(** * The evidence check *)

Section evidence.
Implicit Types (people : gmap string person) (og tg ht : gset string).

Lemma fails_evidence_false people ht :
  fails_evidence people ht = false ↔
  ∀ who r b, people !! who = Some r → trait r = Some b →
                bool_decide (who ∈ ht) = b.
Proof.
  unfold fails_evidence. rewrite <- not_true_iff_false, existsb_exists. split.
  - intros Hno person r b Hr Hb.
    destruct (decide (bool_decide (person ∈ ht) = b)) as [| Hne]; [done |].
    exfalso. apply Hno. exists (person, r). split.
    + by apply list_elem_of_In, elem_of_map_to_list.
    + rewrite Hb. by destruct b, (bool_decide (person ∈ ht)).
  - intros Hall ([person r] & Hin%list_elem_of_In%elem_of_map_to_list & Hx).
    destruct (trait r) as [b|] eqn:Hb; [| done].
    rewrite (Hall _ _ _ Hin Hb) in Hx. by destruct b.
Qed.

(** Some [have_trait] always passes: the persons observed with the trait. *)
Lemma passing_evidence_exists people :
  ∃ ht, ht ⊆ dom people ∧ fails_evidence people ht = false.
Proof.
  exists (dom (filter (λ x, trait x.2 = Some true) people)). split.
  - apply subseteq_dom, map_filter_subseteq.
  - apply fails_evidence_false. intros person r b Hr Hb. destruct b.
    + apply bool_decide_eq_true_2, elem_of_dom. exists r.
      by apply map_lookup_filter_Some.
    + apply bool_decide_eq_false_2.
      intros [r' [Hr' Hb']%map_lookup_filter_Some]%elem_of_dom.
      simplify_eq. simpl in Hb'. congruence.
Qed.

Lemma hypotheses_nonempty people : hypotheses people ≠ [].
Proof.
  destruct (passing_evidence_exists people) as (ht & Hsub & Hev).
  assert ((∅, ∅, ht) ∈ hypotheses people) as Hin.
  { rewrite hypotheses_filter, list_elem_of_filter, elem_of_hypothesis_space. set_solver. }
  intros E. rewrite E in Hin. by apply elem_of_nil in Hin.
Qed.

End evidence.

(** * [main] in exact arithmetic *)

Section pipeline.
Implicit Types (people : gmap string person) (og tg ht : gset string).
Local Open Scope Q_scope.

Lemma init_probabilities_nil people : init_probabilities (T:=Q) people = [] ↔ people = ∅.
Proof.
  unfold init_probabilities. rewrite <- map_to_list_empty_iff.
  destruct (map_to_list people); naive_solver.
Qed.

(** Accumulating at least one hypothesis and normalizing succeeds, and
    leaves every distribution with total 1. *)
Lemma accumulate_normalize people (hs : list hypothesis) :
  hs ≠ [] →
  ∃ probs table,
    accumulate people (init_probabilities people) hs = Some probs ∧
    normalize probs = Some table ∧
    table.*1 = (map_to_list people).*1 ∧ Forall (totals 1) table.
Proof.
  intros Hhs. destruct (init_probabilities_totals people) as [H0 K0].
  destruct (accumulate_totals people hs _ 0 H0) as (probs & t & Hacc & Ht & K & _ & Hlt & _).
  specialize (Hlt Hhs).
  destruct (normalize_totals probs t) as (table & Hn & H1 & K1); [lra | done |].
  exists probs, table. split_and!; [done | done | by rewrite K1, K, K0 | done].
Qed.

Lemma main_totals people :
  ∃ table, main people = Some table ∧
    table.*1 = (map_to_list people).*1 ∧ Forall (totals 1) table.
Proof.
  destruct (accumulate_normalize people (hypotheses people) (hypotheses_nonempty people))
    as (probs & table & Hacc & Hn & K & H1).
  exists table. unfold main. rewrite Hacc. by simpl.
Qed.

Lemma unresolved_gene_count people (x : option string) og tg ht :
  (og, tg, ht) ∈ hypotheses people →
  (∀ n, x = Some n → n ∉ dom people) →
  gene_count x og tg = 0%Z.
Proof.
  rewrite hypotheses_filter, list_elem_of_filter, elem_of_hypothesis_space.
  intros (_ & Hog & Htg & _) Hx. unfold gene_count, in_set. destruct x as [n|]; [| done].
  specialize (Hx n eq_refl).
  rewrite !bool_decide_eq_false_2; [done | set_solver ..].
Qed.

End pipeline.

(** * The hypotheses of a single founder *)

Section single_founder.

Lemma powerset_empty : powerset ∅ = [∅].
Proof. unfold powerset. by rewrite elements_empty. Qed.

Lemma powerset_singleton (n : string) : powerset {[n]} = [∅; {[n]}].
Proof.
  unfold powerset. rewrite elements_singleton. cbn. by rewrite union_empty_r_L.
Qed.

Local Opaque powerset.

Lemma hypotheses_single_founder (n : string) :
  hypotheses (single_founder n) =
  [(∅, ∅, ∅); (∅, {[n]}, ∅); ({[n]}, ∅, ∅);
   (∅, ∅, {[n]}); (∅, {[n]}, {[n]}); ({[n]}, ∅, {[n]})].
Proof.
  unfold hypotheses, gene_assignments, fails_evidence, single_founder.
  rewrite dom_singleton_L, map_to_list_singleton, powerset_singleton.
  cbn. by rewrite difference_empty_L, difference_diag_L, powerset_singleton, powerset_empty.
Qed.

End single_founder.

(** * Binary64 *)

(** The literals of the program, read in binary64, are the floats that
    Python reads. *)
Lemma lit_binary64 :
  lit 0 = 0%float ∧ lit 1 = 1%float ∧ lit 0.5 = 0.5%float ∧
  lit 0.01 = 0.01%float ∧ lit 0.03 = 0.03%float ∧ lit 0.96 = 0.96%float ∧
  lit 0.65 = 0.65%float ∧ lit 0.35 = 0.35%float ∧
  lit 0.56 = 0.56%float ∧ lit 0.44 = 0.44%float ∧ lit 0.99 = 0.99%float.
Proof. repeat split. Qed.

(** * The inheritance model *)

(** C6: with mutation rate m = 0.01, a parent with two copies passes the
    variant with probability 1 - m and does not with probability m; a
    parent with none passes it with probability m and does not with
    probability 1 - m; a parent with one copy passes it, and does not,
    with probability exactly 0.5.  This holds in either arithmetic. *)
Theorem pass_down_table (T : Type) (A : Arith T) :
  let m : T := lit 0.01 in
  PROBS_mutation = m ∧
  pass_down 2 true = Some (lit 1 - m)%num ∧ pass_down 2 false = Some m ∧
  pass_down 0 true = Some m ∧ pass_down 0 false = Some (lit 1 - m)%num ∧
  pass_down 1 true = Some (lit 0.5) ∧ pass_down 1 false = Some (lit 0.5).
Proof. repeat split. Qed.

(** C10: for a parent gene count of 0, 1 or 2, the probabilities of passing
    and of not passing the variant add up to 1, in exact arithmetic and in
    binary64 alike. *)
Theorem pass_down_complementary (g : Z) :
  g = 0%Z ∨ g = 1%Z ∨ g = 2%Z →
  (∃ a b : Q, pass_down g true = Some a ∧ pass_down g false = Some b ∧ (a + b == 1)%Q) ∧
  (∃ a b : float, pass_down g true = Some a ∧ pass_down g false = Some b ∧
                  (a + b)%float = 1%float).
Proof.
  intros [-> | [-> | ->]]; (split; eexists _, _; (split; [reflexivity |]);
    (split; [reflexivity |])); vm_compute; reflexivity.
Qed.

Lemma pass_down_complementary_witness :
  (∃ a b : Q, pass_down 2 true = Some a ∧ pass_down 2 false = Some b ∧ (a + b == 1)%Q) ∧
  (∃ a b : float, pass_down 2 true = Some a ∧ pass_down 2 false = Some b ∧
                  (a + b)%float = 1%float).
Proof. apply (pass_down_complementary 2). right; right; reflexivity. Defined.

(** * The joint probability *)

(** C1: on the family of three with every gene count 0 and no trait, the
    mother's and the father's factors are the same number 0.96 * 0.99, the
    set of factors keeps it once, and the product returned lacks one of the
    two: it is 0.96 * 0.99 * (0.9801 * 0.99) and not the product of the
    three factors.  This is so in exact arithmetic and in binary64. *)
Theorem joint_probability_family_drops_factor :
  (∃ p : Q, joint_probability family ∅ ∅ ∅ = Some p ∧
     (p == 0.96 * 0.99 * (0.9801 * 0.99))%Q ∧
     ¬ (p == 0.96 * 0.99 * (0.96 * 0.99) * (0.9801 * 0.99))%Q) ∧
  (∃ p : float, joint_probability family ∅ ∅ ∅ = Some p ∧
     p = (0.96 * 0.99 * ((1 - 0.01) * (1 - 0.01) * 0.99))%float ∧
     p ≠ (0.96 * 0.99 * (0.96 * 0.99) * ((1 - 0.01) * (1 - 0.01) * 0.99))%float).
Proof.
  split.
  - exists (default 0%Q (joint_probability family ∅ ∅ ∅)).
    split; [vm_compute; reflexivity |]. split; vm_compute; [reflexivity | discriminate].
  - eexists. split; [vm_compute; reflexivity |]. split; [vm_compute; reflexivity |].
    intros E. apply (f_equal (λ x, PrimFloat.eqb x 0x1.d826f35b6d3e2p-1)) in E.
    vm_compute in E. discriminate.
Qed.

(** C9: the joint probability of any hypothesis on any pedigree is
    computed without error, lies between 0 and 1, and is 1 exactly when
    the pedigree has no person. *)
Theorem joint_probability_range (people : gmap string person) (og tg ht : gset string) :
  ∃ p : Q, joint_probability people og tg ht = Some p ∧
    (0 <= p ∧ p <= 1 ∧ (p == 1 ↔ people = ∅))%Q.
Proof.
  destruct (joint_probability_proper people og tg ht) as (p & Hp & H0 & H1 & Hiff).
  exists p. split_and!; [done | by apply Qlt_le_weak | done | done].
Qed.

(** * The enumeration of hypotheses *)

(** C4: before the evidence check, the loops of [main] range over the full
    hypothesis space of the pedigree's names: every triple of sets of names
    (one_gene, two_genes, have_trait) with two_genes disjoint from one_gene
    occurs, and occurs once; for n persons there are 3 ^ n pairs
    (one_gene, two_genes) and 2 ^ n sets have_trait.  The hypotheses that
    reach the loop body are those of this space that pass the check. *)
Theorem enumeration_is_full_space (people : gmap string person) :
  let names := dom people in
  let n := size people in
  NoDup (hypothesis_space names) ∧
  (∀ og tg ht, (og, tg, ht) ∈ hypothesis_space names ↔
               og ⊆ names ∧ tg ⊆ names ∧ og ## tg ∧ ht ⊆ names) ∧
  length (gene_assignments names) = 3 ^ n ∧
  length (powerset names) = 2 ^ n ∧
  length (hypothesis_space names) = 3 ^ n * 2 ^ n ∧
  hypotheses people =
    filter (λ h : hypothesis, fails_evidence people h.2 = false) (hypothesis_space names).
Proof.
  intros names n. subst n. rewrite <- size_dom. split_and!.
  - apply NoDup_hypothesis_space.
  - apply elem_of_hypothesis_space.
  - apply length_gene_assignments.
  - apply length_powerset.
  - apply length_hypothesis_space.
  - apply hypotheses_filter.
Qed.

(** C5: [main] accumulates the joint probability of the hypotheses listed
    by [hypotheses], and a hypothesis of the space is among them exactly
    when, for every person whose trait is observed, membership in
    have_trait equals the observed value; a person whose trait is unknown
    constrains nothing. *)
Theorem accumulated_hypotheses_satisfy_evidence (people : gmap string person)
    (og tg ht : gset string) :
  (∀ T (A : Arith T),
     main (T:=T) people =
     accumulate people (init_probabilities people) (hypotheses people) ≫= normalize) ∧
  ((og, tg, ht) ∈ hypotheses people ↔
   (og, tg, ht) ∈ hypothesis_space (dom people) ∧
   ∀ who r b, people !! who = Some r → trait r = Some b →
                 bool_decide (who ∈ ht) = b).
Proof.
  split; [done |].
  by rewrite hypotheses_filter, list_elem_of_filter, fails_evidence_false, (comm and).
Qed.

(** * Normalization *)

(** C3: when at least one hypothesis is accumulated, [normalize] succeeds
    and, for every person of the pedigree, the gene distribution and the
    trait distribution each add up to 1 (within 1e-9: exactly). *)
Theorem normalize_sums_to_one (people : gmap string person) (hs : list hypothesis) :
  hs ≠ [] →
  ∃ probs table,
    accumulate people (init_probabilities people) hs = Some probs ∧
    normalize probs = Some table ∧
    table.*1 = (map_to_list people).*1 ∧
    Forall (λ x : string * entry Q,
      (Qabs (g2 (gene x.2) + g1 (gene x.2) + g0 (gene x.2) - 1) <= 1e-9 ∧
       Qabs (tTrue (trait_ x.2) + tFalse (trait_ x.2) - 1) <= 1e-9)%Q) table.
Proof.
  intros Hhs.
  destruct (accumulate_normalize people hs Hhs) as (probs & table & Hacc & Hn & K & H1).
  exists probs, table. split_and!; [done .. |].
  eapply Forall_impl; [exact H1 |]. intros [n e] [Hg Ht].
  unfold gene_sum, trait_sum in Hg, Ht. cbn [snd] in *.
  rewrite Hg, Ht. split; vm_compute; discriminate.
Qed.

Lemma normalize_sums_to_one_witness :
  ∃ probs table,
    accumulate family (init_probabilities family) [(∅, ∅, ∅)] = Some probs ∧
    normalize probs = Some table ∧
    table.*1 = (map_to_list family).*1 ∧
    Forall (λ x : string * entry Q,
      (Qabs (g2 (gene x.2) + g1 (gene x.2) + g0 (gene x.2) - 1) <= 1e-9 ∧
       Qabs (tTrue (trait_ x.2) + tFalse (trait_ x.2) - 1) <= 1e-9)%Q) table.
Proof. apply (normalize_sums_to_one family [(∅, ∅, ∅)]). discriminate. Defined.

(** C7: [normalize] raises (division by zero) exactly when some
    distribution has total zero; after accumulation that is exactly when
    the pedigree has a person and no hypothesis was accumulated.  The error
    is a result of its own ([None]); a table that is returned has every
    distribution adding up to 1. *)
Theorem normalize_raises_iff (people : gmap string person) (hs : list hypothesis) :
  ∃ probs : list (string * entry Q),
    accumulate people (init_probabilities people) hs = Some probs ∧
    (normalize probs = None ↔
     Exists (λ x, gene_total (gene x.2) == 0 ∨ trait_total (trait_ x.2) == 0)%Q probs) ∧
    (normalize probs = None ↔ people ≠ ∅ ∧ hs = []) ∧
    (∀ table, normalize probs = Some table → Forall (totals 1) table).
Proof.
  destruct (init_probabilities_totals people) as [H0 K0].
  destruct (accumulate_totals people hs _ 0%Q H0)
    as (probs & t & Hacc & Ht & K & _ & Hlt & Hnil).
  exists probs. split; [done |]. split; [apply normalize_None |].
  destruct hs as [| h hs].
  - rewrite (Hnil eq_refl) in *. destruct (decide (people = ∅)) as [-> | Hne].
    + split; [split; [done | naive_solver] |]. intros table.
      unfold init_probabilities. rewrite map_to_list_empty. by intros [= <-].
    + assert (init_probabilities (T:=Q) people ≠ []) as Hinit
        by (by rewrite init_probabilities_nil).
      rewrite (normalize_zero _ Hinit H0). split; [done | done].
  - specialize (Hlt ltac:(done)).
    destruct (normalize_totals probs t) as (table & Hn & H1 & _); [lra | done |].
    rewrite Hn. split; [split; [done | naive_solver] |]. by intros ? [= <-].
Qed.

(** * From the pedigree to the table *)

(** C2: for a single founder whose trait is not observed, [main] returns
    the prior 0.01, 0.03, 0.96 for gene counts 2, 1, 0 in exact arithmetic.
    In binary64 it returns the floats 0.01 and 0.96 for gene counts 2 and
    0, and for gene count 1 the float next above 0.03. *)
Theorem single_founder_posterior (n : string) :
  (∃ e : entry Q, main (single_founder n) = Some [(n, e)] ∧
     (g2 (gene e) == 0.01 ∧ g1 (gene e) == 0.03 ∧ g0 (gene e) == 0.96)%Q) ∧
  (∃ e : entry float, main (single_founder n) = Some [(n, e)] ∧
     g2 (gene e) = 0.01%float ∧ g1 (gene e) = next_up 0.03%float ∧
     g0 (gene e) = 0.96%float).
Proof.
  unfold main. rewrite hypotheses_single_founder.
  unfold accumulate, joint_probability, init_probabilities, single_founder.
  rewrite map_to_list_singleton.
  split; eval_members n; (eexists; split; [vm_compute; reflexivity |]); vm_compute; done.
Qed.

(** C2, as stated, fails in binary64: the posterior of gene count 1 is not
    the float 0.03. *)
Lemma single_founder_binary64_inexact :
  ¬ ∃ e : entry float, main (single_founder "Harry") = Some [("Harry", e)] ∧
      g2 (gene e) = 0.01%float ∧ g1 (gene e) = 0.03%float ∧ g0 (gene e) = 0.96%float.
Proof.
  intros (e & Hmain & _ & H1 & _). vm_compute in Hmain.
  injection Hmain as <-. cbn in H1.
  apply (f_equal (λ x, PrimFloat.eqb x 0.03)) in H1. vm_compute in H1. discriminate.
Qed.

(** C8: no pedigree makes [main] report a failure, malformed or not: the
    enumeration runs and the normalized table, with an entry for every
    person, is returned.  A parent reference that is absent or names nobody
    in the pedigree is read as a parent with gene count 0. *)
Theorem main_validates_nothing (people : gmap string person) :
  (∃ table : list (string * entry Q),
     main people = Some table ∧
     table.*1 = (map_to_list people).*1 ∧ Forall (totals 1) table) ∧
  (∀ (x : option string) og tg ht,
     (og, tg, ht) ∈ hypotheses people →
     (∀ n, x = Some n → n ∉ dom people) →
     gene_count x og tg = 0%Z).
Proof.
  split; [apply main_totals |]. intros x og tg ht. apply unresolved_gene_count.
Qed.

(** C8, as stated, fails on a pedigree whose only person has a mother who
    is not in the pedigree and no father: [main] returns a table. *)
Lemma malformed_pedigree_is_processed :
  malformed half_specified = true ∧
  ∃ table : list (string * entry Q), main half_specified = Some table.
Proof. split; [reflexivity |]. eexists. vm_compute. reflexivity. Qed.

(** * More on [powerset]: the order of the subsets *)

Section powerset_order.
Context {A : Type}.
Implicit Types (l k : list A) (r : nat).

Lemma combinations_length l r k : k ∈ combinations l r → length k = r.
Proof.
  revert r k. induction l as [|x l IH]; intros [|r] k; simpl.
  - by intros ->%list_elem_of_singleton.
  - by intros ?%elem_of_nil.
  - by intros ->%list_elem_of_singleton.
  - rewrite elem_of_app, list_elem_of_fmap.
    intros [(k' & -> & Hk') | Hk]; [simpl; f_equal |]; eauto.
Qed.

Lemma combinations_sublist l r k : k ∈ combinations l r → k `sublist_of` l.
Proof.
  revert r k. induction l as [|x l IH]; intros [|r] k; simpl.
  - by intros ->%list_elem_of_singleton.
  - by intros ?%elem_of_nil.
  - intros ->%list_elem_of_singleton. apply sublist_nil_l.
  - rewrite elem_of_app, list_elem_of_fmap.
    intros [(k' & -> & Hk') | Hk]; [apply sublist_skip | apply sublist_cons]; eauto.
Qed.

Lemma combinations_beyond l r : length l < r → combinations l r = [].
Proof.
  revert r. induction l as [|x l IH]; intros [|r] Hr; simpl in *; try lia; [done |].
  by rewrite !IH by lia.
Qed.

Lemma combinations_all l : combinations l (length l) = [l].
Proof.
  induction l as [|x l IH]; simpl; [done |].
  by rewrite IH, combinations_beyond by lia.
Qed.

(** Lists produced for increasing [r], each of measure [r], come out in
    order of measure. *)
Lemma bind_seq_lookup_mono {B} (f : nat → list B) (μ : B → nat) (a n i j : nat) (x y : B) :
  (∀ r z, z ∈ f r → μ z = r) →
  i ≤ j → (seq a n ≫= f) !! i = Some x → (seq a n ≫= f) !! j = Some y → μ x ≤ μ y.
Proof.
  intros Hμ. revert a i j. induction n as [|n IH]; intros a i j Hij; [done |].
  cbn [seq]. rewrite bind_cons, !lookup_app_Some.
  intros [Hx | [Hi Hx]] [Hy | [Hj Hy]].
  - apply list_elem_of_lookup_2, Hμ in Hx, Hy. lia.
  - apply list_elem_of_lookup_2, Hμ in Hx.
    apply list_elem_of_lookup_2, list_elem_of_bind in Hy as (r & Hy & Hr).
    apply Hμ in Hy. apply elem_of_seq in Hr. lia.
  - apply lookup_lt_Some in Hy. lia.
  - eapply (IH (S a) (i - length (f a)) (j - length (f a))); [lia | done ..].
Qed.

End powerset_order.

(** * Facts that hold in any arithmetic *)

Lemma foldlM_ext {S B} (f g : S → B → option S) (s : S) (l : list B) :
  (∀ s x, x ∈ l → f s x = g s x) → foldlM f s l = foldlM g s l.
Proof.
  revert s. induction l as [|x l IH]; intros s Hfg; simpl; [done |].
  rewrite Hfg by left. destruct (g s x); simpl; [| done].
  apply IH. intros s' y Hy. apply Hfg. by right.
Qed.

Lemma foldlM_is_Some {S B} (f : S → B → option S) (s : S) (l : list B) :
  (∀ s x, is_Some (f s x)) → is_Some (foldlM f s l).
Proof.
  intros Hf. revert s. induction l as [|x l IH]; intros s; simpl; [done |].
  destruct (Hf s x) as [s' ->]. apply IH.
Qed.

Section any_arithmetic.
Context {T : Type} `{Arith T}.
Implicit Types (people : gmap string person) (og tg ht : gset string).

Lemma gene_count_range (x : option string) og tg :
  gene_count x og tg = 0%Z ∨ gene_count x og tg = 1%Z ∨ gene_count x og tg = 2%Z.
Proof. unfold gene_count. destruct (in_set x tg), (in_set x og); auto. Qed.

Lemma gene_count_precedence (x : option string) og tg :
  gene_count x (og ∖ tg) tg = gene_count x og tg.
Proof.
  unfold gene_count, in_set. destruct x as [n|]; [| done].
  destruct (bool_decide (n ∈ tg)) eqn:E; [done |]. apply bool_decide_eq_false in E.
  replace (bool_decide (n ∈ og ∖ tg)) with (bool_decide (n ∈ og)); [done |].
  apply bool_decide_ext. set_solver.
Qed.

Lemma person_probability_is_Some (n : string) (r : person) og tg ht :
  is_Some (person_probability (T:=T) n r og tg ht).
Proof.
  unfold person_probability, gene_count, in_set.
  destruct (bool_decide (n ∈ tg)), (bool_decide (n ∈ og)), (bool_decide (n ∈ ht));
    destruct (mother r) as [m|], (father r) as [f|];
    repeat match goal with
           | |- context [bool_decide ?P] => destruct (bool_decide P)
           end; by eexists.
Qed.

Lemma person_probability_precedence (n : string) (r : person) og tg ht :
  person_probability (T:=T) n r (og ∖ tg) tg ht = person_probability n r og tg ht.
Proof.
  unfold person_probability. rewrite !gene_count_precedence.
  destruct (bool_decide (n ∈ tg)) eqn:E; [done |]. apply bool_decide_eq_false in E.
  replace (bool_decide (n ∈ og ∖ tg)) with (bool_decide (n ∈ og)); [done |].
  apply bool_decide_ext. set_solver.
Qed.

Lemma update_is_Some (probs : list (string * entry T)) og tg ht (p : T) :
  ∃ probs', update probs og tg ht p = Some probs' ∧ probs'.*1 = probs.*1.
Proof.
  unfold update. induction probs as [|[n e] probs (probs' & IH & Hkeys)]; [by exists [] |].
  cbn [mapM]. rewrite IH. unfold gene_add.
  destruct (gene_count_range (Some n) og tg) as [-> | [-> | ->]];
    (eexists; split; [reflexivity | simpl; by f_equal]).
Qed.

End any_arithmetic.

(** * The table in exact arithmetic: order of accumulation *)

Lemma update_fmap {T} `{Arith T} (probs : list (string * entry T))
    (og tg ht : gset string) (p : T) :
  update probs og tg ht p = Some (updated og tg ht p <$> probs).
Proof.
  unfold update. induction probs as [|[n e] probs IH]; [done |].
  cbn [mapM]. rewrite IH. unfold updated, gene_add, gene_count, in_set. simpl.
  by destruct (bool_decide (n ∈ tg)), (bool_decide (n ∈ og)).
Qed.


Section table.
Implicit Types (people : gmap string person) (og tg ht : gset string).
Implicit Types (probs : list (string * entry Q)) (p : Q).
Local Open Scope Q_scope.


Lemma entry_eq_sym (e e' : entry Q) : entry_eq e e' → entry_eq e' e.
Proof. intros (? & ? & ? & ? & ?). by repeat split. Qed.









Lemma accumulate_accumulated people probs (hs : list hypothesis) :
  accumulate people probs hs = Some (accumulated people probs hs).
Proof.
  unfold accumulate, accumulated. revert probs.
  induction hs as [|[[og tg] ht] hs IH]; intros probs; [done |].
  cbn [foldlM foldl].
  destruct (joint_probability_proper people og tg ht) as (p & -> & _).
  simpl. rewrite update_fmap. simpl. apply IH.
Qed.



End table.



(** * [normalize] in exact arithmetic *)

Section normalize.
Implicit Types (probs table : list (string * entry Q)).
Local Open Scope Q_scope.

Lemma normalize_Some probs table :
  normalize probs = Some table ↔
  Forall2 (λ x y, y.1 = x.1 ∧ normalize_gene (gene x.2) = Some (gene y.2) ∧
                  normalize_trait (trait_ x.2) = Some (trait_ y.2)) probs table.
Proof.
  unfold normalize. rewrite mapM_Some.
  split; intros Hall; (eapply Forall2_impl; [exact Hall |]);
    intros [n e] [n' [g t]]; simpl.
  - destruct (normalize_gene (gene e)); [| done].
    destruct (normalize_trait (trait_ e)); [| done]. simpl. by intros [= <- <- <-].
  - by intros (-> & -> & ->).
Qed.

Lemma normalize_gene_inv (d d' : gene_dist Q) :
  normalize_gene d = Some d' →
  ¬ gene_total d == 0 ∧
  g2 d' == g2 d / gene_total d ∧ g1 d' == g1 d / gene_total d ∧
  g0 d' == g0 d / gene_total d.
Proof.
  unfold normalize_gene. cbn [num_eqb num_div lit Q_arith].
  destruct (Qeq_bool (gene_total d) 0) eqn:E; [done |]. intros [= <-].
  apply Qeq_bool_neq in E. by repeat split.
Qed.

Lemma normalize_trait_inv (d d' : trait_dist Q) :
  normalize_trait d = Some d' →
  ¬ trait_total d == 0 ∧
  tTrue d' == tTrue d / trait_total d ∧ tFalse d' == tFalse d / trait_total d.
Proof.
  unfold normalize_trait. cbn [num_eqb num_div lit Q_arith].
  destruct (Qeq_bool (trait_total d) 0) eqn:E; [done |]. intros [= <-].
  apply Qeq_bool_neq in E. by repeat split.
Qed.




End normalize.

(** * Observed traits in the table *)

Section evidence_in_output.
Implicit Types (people : gmap string person) (probs table : list (string * entry Q)).
Local Open Scope Q_scope.

Lemma init_probabilities_observed_ok people :
  Forall (observed_ok people) (init_probabilities people).
Proof.
  unfold init_probabilities. apply Forall_fmap, Forall_forall.
  intros [n r] _ r' b _ _. by destruct b.
Qed.

Lemma accumulated_observed_ok people probs (hs : list hypothesis) :
  Forall (λ h : hypothesis, fails_evidence people h.2 = false) hs →
  Forall (observed_ok people) probs →
  Forall (observed_ok people) (accumulated people probs hs).
Proof.
  unfold accumulated. intros Hhs. revert probs.
  induction Hhs as [|[[og tg] ht] hs Hev _ IH]; intros probs Hprobs; [done |].
  cbn [foldl]. apply IH. apply Forall_fmap. eapply Forall_impl; [exact Hprobs |].
  intros [n e] Hok r b Hr Hb. simpl in *.
  rewrite fails_evidence_false in Hev. rewrite (Hev n r b Hr Hb).
  specialize (Hok r b Hr Hb). simpl in Hok. by destruct b.
Qed.

Lemma main_accumulated people :
  main people =
  normalize (accumulated people (init_probabilities people) (hypotheses people)).
Proof. unfold main. by rewrite accumulate_accumulated. Qed.

End evidence_in_output.

Lemma ratio_certain (a c : Q) :
  (¬ a + c == 0 → c == 0 → a / (a + c) == 1 ∧ c / (a + c) == 0)%Q.
Proof.
  intros H0 Hc. rewrite Hc in *.
  split; field; intros Ha; apply H0; rewrite Ha; ring.
Qed.

(** * The product returned and the product of all factors *)

Section product.
Implicit Types (people : gmap string person) (og tg ht : gset string) (s fs : list Q).
Local Open Scope Q_scope.

Lemma foldl_Qmult_scale (a : Q) (l : list Q) : foldl Qmult a l == a * foldl Qmult 1 l.
Proof.
  revert a. induction l as [|x l IH]; intros a; simpl; [ring |].
  rewrite (IH (a * x)), (IH (1 * x)). ring.
Qed.

Lemma foldl_Qmult_app (l k : list Q) :
  foldl Qmult 1 (l ++ k) == foldl Qmult 1 l * foldl Qmult 1 k.
Proof. by rewrite foldl_app, foldl_Qmult_scale. Qed.

Lemma foldl_Qmult_pos (l : list Q) : Forall proper_factor l → 0 < foldl Qmult 1 l.
Proof. intros Hl. by apply (foldl_mul_proper l 1 Hl). Qed.

Lemma set_add_cases (x : Q) (s : list Q) :
  (set_add x s = s ∧ Exists (λ y, x == y) s) ∨
  (set_add x s = s ++ [x] ∧ Forall (λ y, ¬ x == y) s).
Proof.
  unfold set_add. cbn [num_eqb Q_arith]. destruct (existsb (Qeq_bool x) s) eqn:E.
  - left. split; [done |]. apply existsb_exists in E as (y & Hy & E).
    apply Exists_exists. exists y. split; [by apply list_elem_of_In | by apply Qeq_bool_iff].
  - right. split; [done |]. apply Forall_forall. intros y Hy Hxy.
    apply not_true_iff_false in E. apply E, existsb_exists. exists y.
    split; [by apply list_elem_of_In | by apply Qeq_bool_iff].
Qed.

(** Adding the factors [fs] to the set [s]. *)
Lemma set_product (s fs : list Q) :
  Forall proper_factor s → Forall proper_factor fs →
  let s' := foldl (λ s x, set_add x s) s fs in
  Forall proper_factor s' ∧
  foldl Qmult 1 (s ++ fs) <= foldl Qmult 1 s' ∧
  (distinct fs → Forall (λ x, Forall (λ y, ¬ x == y) s) fs →
   foldl Qmult 1 s' == foldl Qmult 1 (s ++ fs)).
Proof.
  intros Hs Hfs. revert s Hs. induction Hfs as [|x fs Hx Hfs IH]; intros s Hs; simpl.
  - rewrite app_nil_r. split; [done |]. split; [apply Qle_refl | done].
  - destruct (set_add_cases x s) as [[-> Hin] | [-> Hout]].
    + destruct (IH s Hs) as (Hs' & Hle & _). split; [done |]. split.
      * eapply Qle_trans; [| exact Hle]. rewrite !foldl_Qmult_app. simpl.
        rewrite (foldl_Qmult_scale (1 * x)).
        pose proof (foldl_Qmult_pos s Hs) as HA. pose proof (foldl_Qmult_pos fs Hfs) as HB.
        destruct Hx as [Hx0 Hx1].
        set (A := foldl Qmult 1 s) in *. set (B := foldl Qmult 1 fs) in *.
        assert (0 < A * B) as HAB by nra.
        assert (A * (1 * x * B) == A * B * x) as -> by ring. nra.
      * intros _ Hall. apply Forall_cons in Hall as [Hxs _].
        apply Exists_exists in Hin as (y & Hy & Hxy).
        rewrite Forall_forall in Hxs. by destruct (Hxs y Hy).
    + assert (Forall proper_factor (s ++ [x])) as Hs1
        by (apply Forall_app; split; [done | by constructor]).
      destruct (IH _ Hs1) as (Hs' & Hle & Heq).
      rewrite <- (assoc_L (++)) in Hle, Heq. simpl in Hle, Heq.
      split; [done |]. split; [done |].
      intros [Hx' Hd] Hall. apply Forall_cons in Hall as [_ Hall]. apply Heq; [done |].
      rewrite Forall_forall in Hall, Hx' |- *. intros y Hy.
      apply Forall_app. split; [by apply Hall |].
      constructor; [| done]. intros Hyx. by apply (Hx' y Hy).
Qed.

Lemma factors_fold (l : list (string * person)) og tg ht (s : list Q) :
  ∃ fs : list Q,
    mapM (λ '(n, r), person_probability n r og tg ht) l = Some fs ∧
    Forall proper_factor fs ∧
    foldlM (λ probabilities '(n, r),
      p ← person_probability n r og tg ht;
      Some (set_add p probabilities)) s l = Some (foldl (λ s x, set_add x s) s fs).
Proof.
  revert s. induction l as [|[n r] l IH]; intros s.
  - by exists [].
  - destruct (person_probability_proper n r og tg ht) as (q & Hq & Hproper).
    destruct (IH (set_add q s)) as (fs & Hfs & Hall & Hfold).
    exists (q :: fs). cbn [mapM foldlM]. rewrite Hq, Hfs. simpl.
    split; [done |]. split; [by constructor | done].
Qed.

End product.

Lemma equal_factors_fold (l : list (string * person)) (og tg ht : gset string) (f q : Q) :
  Forall (λ x, ∃ q', person_probability x.1 x.2 og tg ht = Some q' ∧ (q' == f)%Q) l →
  (q == f)%Q →
  foldlM (λ probabilities '(n, r),
    p ← person_probability n r og tg ht;
    Some (set_add p probabilities)) [q] l = Some [q].
Proof.
  intros Hl Hq. induction Hl as [|[n r] l (q' & Hq' & Hf) _ IH]; [done |].
  cbn [foldlM]. simpl in Hq'. rewrite Hq'. cbn [mbind option_bind].
  unfold set_add. cbn [existsb num_eqb Q_arith].
  assert (Qeq_bool q' q = true) as -> by (apply Qeq_bool_iff; by rewrite Hf, Hq).
  exact IH.
Qed.

(** * The factor of one person as that person's assignment varies *)

Section local.
Implicit Types (og tg ht s : gset string) (n : string).

Lemma in_set_union_other (x : option string) n s :
  x ≠ Some n → in_set x (s ∪ {[n]}) = in_set x s.
Proof.
  destruct x as [m|]; [| done]. intros Hm. apply bool_decide_ext. set_solver.
Qed.

Lemma in_set_difference_other (x : option string) n s :
  x ≠ Some n → in_set x (s ∖ {[n]}) = in_set x s.
Proof.
  destruct x as [m|]; [| done]. intros Hm. apply bool_decide_ext. set_solver.
Qed.

Lemma bool_decide_union_self n s : bool_decide (n ∈ s ∪ {[n]}) = true.
Proof. apply bool_decide_eq_true_2. set_solver. Qed.

Lemma bool_decide_difference_self n s : bool_decide (n ∈ s ∖ {[n]}) = false.
Proof. apply bool_decide_eq_false_2. set_solver. Qed.

End local.

(** * How many hypotheses pass the evidence check *)

Section count.
Implicit Types (people : gmap string person) (ht X : gset string).

Let observed_true people : gset string := dom (filter (λ x, trait x.2 = Some true) people).
Let unknown people : gset string := dom (filter (λ x, trait x.2 = None) people).

Lemma elem_of_observed_true people n :
  n ∈ observed_true people ↔ ∃ r, people !! n = Some r ∧ trait r = Some true.
Proof.
  unfold observed_true. rewrite elem_of_dom. unfold is_Some.
  by setoid_rewrite map_lookup_filter_Some.
Qed.

Lemma elem_of_unknown people n :
  n ∈ unknown people ↔ ∃ r, people !! n = Some r ∧ trait r = None.
Proof.
  unfold unknown. rewrite elem_of_dom. unfold is_Some.
  by setoid_rewrite map_lookup_filter_Some.
Qed.

Lemma passing_sets people ht :
  ht ⊆ dom people ∧ fails_evidence people ht = false ↔
  ∃ X, X ⊆ unknown people ∧ ht = observed_true people ∪ X.
Proof.
  rewrite fails_evidence_false. split.
  - intros [Hsub Hev]. exists (ht ∩ unknown people). split; [set_solver |].
    apply set_eq. intros n. rewrite elem_of_union, elem_of_intersection,
      elem_of_observed_true, elem_of_unknown. split.
    + intros Hn. destruct (people !! n) as [r|] eqn:Hr.
      2:{ apply Hsub, elem_of_dom in Hn as [? ?]. congruence. }
      destruct (trait r) as [[|]|] eqn:Hb; [left; eauto | | right; eauto].
      specialize (Hev n r false Hr Hb). by apply bool_decide_eq_false in Hev.
    + intros [(r & Hr & Hb) | [? _]]; [| done].
      specialize (Hev n r true Hr Hb). by apply bool_decide_eq_true in Hev.
  - intros (X & HX & ->). split.
    + intros n [(r & Hr & _)%elem_of_observed_true | (r & Hr & _)%HX%elem_of_unknown]%elem_of_union;
        by apply elem_of_dom.
    + intros n r b Hr Hb. destruct b.
      * apply bool_decide_eq_true_2, elem_of_union. left.
        apply elem_of_observed_true. eauto.
      * apply bool_decide_eq_false_2.
        intros [(r' & Hr' & Hb')%elem_of_observed_true
               | (r' & Hr' & Hb')%HX%elem_of_unknown]%elem_of_union; congruence.
Qed.

Lemma passing_Permutation people :
  filter (λ ht, fails_evidence people ht = false) (powerset (dom people)) ≡ₚ
  (λ X, observed_true people ∪ X) <$> powerset (unknown people).
Proof.
  apply NoDup_Permutation.
  - apply NoDup_filter, NoDup_powerset.
  - apply NoDup_fmap_2_strong; [| apply NoDup_powerset].
    intros X Y HX%elem_of_powerset HY%elem_of_powerset E. apply set_eq. intros n.
    assert (n ∈ observed_true people ∪ X ↔ n ∈ observed_true people ∪ Y) as Hn
      by (by rewrite E).
    rewrite !elem_of_union in Hn.
    assert (∀ Z, Z ⊆ unknown people → n ∈ Z → n ∉ observed_true people) as Hdisj.
    { intros Z HZ (r & Hr & Hb)%HZ%elem_of_unknown (r' & Hr' & Hb')%elem_of_observed_true.
      congruence. }
    split; intros Hin.
    + destruct (proj1 Hn (or_intror Hin)) as [HT | HY']; [| done].
      by destruct (Hdisj X HX Hin).
    + destruct (proj2 Hn (or_intror Hin)) as [HT | HX']; [| done].
      by destruct (Hdisj Y HY Hin).
  - intros ht. rewrite list_elem_of_filter, elem_of_powerset, list_elem_of_fmap.
    rewrite (comm and), passing_sets. setoid_rewrite elem_of_powerset. naive_solver.
Qed.

Lemma length_passing people :
  length (filter (λ ht, fails_evidence people ht = false) (powerset (dom people))) =
  2 ^ size (filter (λ x, trait x.2 = None) people).
Proof.
  rewrite passing_Permutation, length_fmap, length_powerset.
  unfold unknown. by rewrite size_dom.
Qed.

End count.

(** * The loader *)

Lemma load_data_snoc (rows : list row) (r : row) :
  load_data (rows ++ [r]) = <[row_name r := person_of_row r]> (load_data rows).
Proof. unfold load_data. by rewrite foldl_app. Qed.

Lemma dom_load_data (rows : list row) :
  dom (load_data rows) = list_to_set (row_name <$> rows).
Proof.
  induction rows as [|r rows IH] using rev_ind; [done |].
  rewrite load_data_snoc, dom_insert_L, IH, fmap_app, list_to_set_app_L. set_solver.
Qed.

(** * The hypotheses of an observed founder *)

Section observed_founder.
Local Opaque powerset.

Lemma hypotheses_observed_founder (n : string) (b : bool) :
  hypotheses (observed_founder n b) =
  let ht : gset string := if b then {[n]} else ∅ in
  [(∅, ∅, ht); (∅, {[n]}, ht); ({[n]}, ∅, ht)].
Proof.
  unfold hypotheses, gene_assignments, fails_evidence, observed_founder.
  rewrite dom_singleton_L, map_to_list_singleton, powerset_singleton.
  cbn.
  rewrite (bool_decide_eq_true_2 (n ∈ ({[n]} : gset string))) by set_solver.
  rewrite (bool_decide_eq_false_2 (n ∈ (∅ : gset string))) by set_solver.
  rewrite difference_empty_L, difference_diag_L, powerset_singleton, powerset_empty.
  by destruct b.
Qed.

End observed_founder.

(** * The values of the table *)

Section output.
Implicit Types (people : gmap string person) (probs table : list (string * entry Q)).
Local Open Scope Q_scope.

Lemma updated_nonnegative og tg ht (p : Q) (x : string * entry Q) :
  0 <= p → nonnegative x → nonnegative (updated og tg ht p x).
Proof.
  destruct x as [n e]. intros Hp (? & ? & ? & ? & ?).
  unfold nonnegative, updated, gene_add, trait_add, gene_count, in_set in *. simpl in *.
  destruct (bool_decide (n ∈ tg)), (bool_decide (n ∈ og)), (bool_decide (n ∈ ht));
    simpl; repeat split; lra.
Qed.

Lemma accumulated_nonnegative people probs (hs : list hypothesis) :
  Forall nonnegative probs → Forall nonnegative (accumulated people probs hs).
Proof.
  unfold accumulated. revert probs.
  induction hs as [|[[og tg] ht] hs IH]; intros probs Hprobs; [done |].
  cbn [foldl]. apply IH, Forall_fmap. eapply Forall_impl; [exact Hprobs |].
  intros x Hx. apply updated_nonnegative; [| done].
  destruct (joint_probability_proper people og tg ht) as (p & -> & Hp & _). simpl. lra.
Qed.

Lemma init_probabilities_nonnegative people :
  Forall nonnegative (init_probabilities people).
Proof.
  unfold init_probabilities. apply Forall_fmap, Forall_forall.
  intros [n r] _. unfold nonnegative. simpl. repeat split; lra.
Qed.

Lemma ratio_bounds (a t : Q) : 0 <= a → a <= t → ¬ t == 0 → 0 <= a / t ∧ a / t <= 1.
Proof.
  intros Ha Hat Ht. assert (0 < t) as Hpos by lra.
  split; [apply Qle_shift_div_l; lra | apply Qle_shift_div_r; lra].
Qed.

End output.


(** * Further properties: the enumeration *)

(** X1: [powerset] lists the empty set first, the whole set last, and the
    subsets in between by size, smaller before larger. *)
Theorem powerset_in_order_of_size (s : gset string) :
  powerset s !! 0%nat = Some ∅ ∧
  last (powerset s) = Some s ∧
  ∀ (i j : nat) (X Y : gset string),
    i ≤ j → powerset s !! i = Some X → powerset s !! j = Some Y → size X ≤ size Y.
Proof.
  unfold powerset, chain_combinations. split_and!.
  - cbn [seq]. rewrite bind_cons, combinations_0. done.
  - rewrite seq_S, bind_app, fmap_app, bind_singleton. cbn [plus].
    rewrite combinations_all. cbn [fmap list_fmap]. rewrite last_snoc.
    by rewrite list_to_set_elements_L.
  - intros i j X Y Hij. rewrite !list_lookup_fmap.
    intros (k1 & H1 & ->)%fmap_Some (k2 & H2 & ->)%fmap_Some.
    assert (∀ k i, (seq 0 (S (length (elements s))) ≫= combinations (elements s)) !! i = Some k →
                   size (list_to_set (C:=gset string) k) = length k) as Hsize.
    { intros k i' Hk. apply size_list_to_set.
      apply list_elem_of_lookup_2, list_elem_of_bind in Hk as (r & Hk & _).
      apply (sublist_NoDup _ (elements s)); [apply NoDup_elements |].
      by apply (combinations_sublist _ r). }
    rewrite (Hsize _ _ H1), (Hsize _ _ H2).
    eapply (bind_seq_lookup_mono (combinations (elements s)) length); [| done ..].
    intros r z. apply combinations_length.
Qed.

(** X2: the evidence check lets through 3 ^ n * 2 ^ u hypotheses, for n
    persons of whom u have no observed trait. *)
Theorem hypotheses_count (people : gmap string person) :
  length (hypotheses people) =
  3 ^ size people * 2 ^ size (filter (λ x, trait x.2 = None) people).
Proof.
  unfold hypotheses.
  assert (∀ l : list (gset string),
    length (l ≫= λ ht, if fails_evidence people ht then []
                       else gene_assignments (dom people) ≫= λ '(og, tg), [(og, tg, ht)]) =
    3 ^ size people * length (filter (λ ht, fails_evidence people ht = false) l)) as Hl.
  { induction l as [|ht l IH]; csimpl; [lia |].
    rewrite length_app, IH. destruct (fails_evidence people ht) eqn:E.
    - rewrite filter_cons_False by congruence. simpl. lia.
    - rewrite filter_cons_True by done. simpl.
      rewrite length_bind, <- (size_dom (D:=gset string)), <- length_gene_assignments.
      assert (∀ k : list (gset string * gset string),
                sum_list_with (λ x, length (let '(og, tg) := x in [(og, tg, ht)])) k
                = length k) as -> by (induction k as [|[??] k IHk]; simpl; lia).
      lia. }
  by rewrite Hl, length_passing.
Qed.

(** * Further properties: the joint probability *)

(** X3: [pass_down] treats the variant and its absence alike, and returns
    no number exactly for a gene count other than 0, 1 and 2. *)
Theorem pass_down_symmetric (T : Type) (A : Arith T) (g : Z) (b : bool) :
  pass_down g b = pass_down (2 - g) (negb b) ∧
  (pass_down g b = None ↔ g ≠ 0%Z ∧ g ≠ 1%Z ∧ g ≠ 2%Z).
Proof.
  unfold pass_down.
  destruct (Z.eqb_spec g 2), (Z.eqb_spec g 0), (Z.eqb_spec g 1),
    (Z.eqb_spec (2 - g) 2), (Z.eqb_spec (2 - g) 0), (Z.eqb_spec (2 - g) 1);
    try lia; destruct b; simpl; (split; [done |]); split; (done || lia || intros (? & ? & ?); done).
Qed.

(** X4: given the gene counts of the parents, the factors of a person over
    the six combinations of gene count and trait add up to 1 (for a founder
    these are the prior times the trait table). *)
Theorem person_factors_sum_to_one (n : string) (r : person) (h : hypothesis) :
  mother r ≠ Some n → father r ≠ Some n →
  ∃ a0 a1 b0 b1 c0 c1 : Q,
    factor_under n r (with_person n 0 false h) = Some a0 ∧
    factor_under n r (with_person n 0 true h) = Some a1 ∧
    factor_under n r (with_person n 1 false h) = Some b0 ∧
    factor_under n r (with_person n 1 true h) = Some b1 ∧
    factor_under n r (with_person n 2 false h) = Some c0 ∧
    factor_under n r (with_person n 2 true h) = Some c1 ∧
    (a0 + a1 + b0 + b1 + c0 + c1 == 1)%Q.
Proof.
  destruct h as [[og tg] ht]. intros Hm Hf.
  unfold factor_under, with_person. cbn [Z.eqb Pos.eqb fst snd].
  unfold person_probability, gene_count.
  rewrite ?(in_set_union_other (mother r) n), ?(in_set_difference_other (mother r) n),
    ?(in_set_union_other (father r) n), ?(in_set_difference_other (father r) n) by done.
  cbn [in_set].
  rewrite !bool_decide_union_self, !bool_decide_difference_self.
  destruct (mother r) as [m|], (father r) as [f|];
    cbn [in_set];
    repeat match goal with
           | |- context [bool_decide ?P] => destruct (bool_decide P)
           end;
    (eexists _, _, _, _, _, _; repeat (split; [reflexivity |]); reflexivity).
Qed.

Lemma person_factors_sum_to_one_witness :
  ∃ a0 a1 b0 b1 c0 c1 : Q,
    factor_under "Harry" (child "Harry" "Lily" "James" None)
      (with_person "Harry" 0 false (∅, {["Lily"]}, ∅)) = Some a0 ∧
    factor_under "Harry" (child "Harry" "Lily" "James" None)
      (with_person "Harry" 0 true (∅, {["Lily"]}, ∅)) = Some a1 ∧
    factor_under "Harry" (child "Harry" "Lily" "James" None)
      (with_person "Harry" 1 false (∅, {["Lily"]}, ∅)) = Some b0 ∧
    factor_under "Harry" (child "Harry" "Lily" "James" None)
      (with_person "Harry" 1 true (∅, {["Lily"]}, ∅)) = Some b1 ∧
    factor_under "Harry" (child "Harry" "Lily" "James" None)
      (with_person "Harry" 2 false (∅, {["Lily"]}, ∅)) = Some c0 ∧
    factor_under "Harry" (child "Harry" "Lily" "James" None)
      (with_person "Harry" 2 true (∅, {["Lily"]}, ∅)) = Some c1 ∧
    (a0 + a1 + b0 + b1 + c0 + c1 == 1)%Q.
Proof. apply person_factors_sum_to_one; discriminate. Defined.

(** X5: [joint_probability] is never below the product of all the persons'
    factors, and equals it when no two persons have the same factor. *)
Theorem joint_probability_versus_product (people : gmap string person)
    (og tg ht : gset string) :
  ∃ (fs : list Q) (p : Q),
    mapM (λ '(n, r), person_probability n r og tg ht) (map_to_list people) = Some fs ∧
    joint_probability people og tg ht = Some p ∧
    (foldl Qmult 1 fs <= p)%Q ∧
    (distinct fs → (p == foldl Qmult 1 fs)%Q).
Proof.
  destruct (factors_fold (map_to_list people) og tg ht []) as (fs & Hfs & Hall & Hfold).
  exists fs. eexists. split; [done |]. unfold joint_probability. rewrite Hfold. simpl.
  split; [done |].
  destruct (set_product [] fs (Forall_nil_2 _) Hall) as (_ & Hle & Heq).
  split; [done |]. intros Hd. apply Heq; [done |].
  apply Forall_forall. intros x _. constructor.
Qed.

(** X18: when every person has the same factor, [joint_probability] returns
    that factor once, however many persons there are. *)
Theorem joint_probability_of_equal_factors (people : gmap string person)
    (og tg ht : gset string) (f : Q) :
  people ≠ ∅ →
  (∀ n r, people !! n = Some r →
          ∃ q, person_probability n r og tg ht = Some q ∧ (q == f)%Q) →
  ∃ p, joint_probability people og tg ht = Some p ∧ (p == f)%Q.
Proof.
  intros Hne Hall. unfold joint_probability.
  assert (Forall (λ x, ∃ q', person_probability x.1 x.2 og tg ht = Some q' ∧ (q' == f)%Q)
            (map_to_list people)) as Hl.
  { apply Forall_forall. intros [n r] Hin%elem_of_map_to_list. by apply Hall. }
  destruct (map_to_list people) as [|[n r] l] eqn:El.
  - by apply map_to_list_empty_iff in El.
  - apply Forall_cons in Hl as [(q & Hq & Hf) Hl]. cbn [foldlM]. simpl in Hq. rewrite Hq.
    cbn [mbind option_bind]. change (set_add q []) with [q].
    rewrite (equal_factors_fold l og tg ht f q Hl Hf). simpl.
    eexists. split; [reflexivity |]. rewrite Hf. ring.
Qed.

Lemma joint_probability_of_equal_factors_witness :
  ∃ p, joint_probability two_founders ∅ ∅ ∅ = Some p ∧ (p == 0.96 * 0.99)%Q.
Proof.
  apply joint_probability_of_equal_factors.
  - intros E. apply (f_equal (λ m, m !! "Lily")) in E. discriminate.
  - intros n r Hr. exists (0.96 * 0.99)%Q. split; [| reflexivity].
    unfold two_founders in Hr. apply lookup_insert_Some in Hr as [[<- <-] | [_ Hr]].
    + reflexivity.
    + apply lookup_singleton_Some in Hr as [<- <-]. reflexivity.
Defined.

(** X6: a name in both [one_gene] and [two_genes] counts as having two
    copies. *)
Theorem two_genes_has_precedence (T : Type) (A : Arith T) (people : gmap string person)
    (probs : list (string * entry T)) (og tg ht : gset string) (p : T) :
  joint_probability people (og ∖ tg) tg ht = joint_probability people og tg ht ∧
  update probs (og ∖ tg) tg ht p = update probs og tg ht p.
Proof.
  split.
  - unfold joint_probability. f_equal. apply foldlM_ext.
    intros s [n r] _. by rewrite person_probability_precedence.
  - unfold update. apply mapM_ext. intros [n e]. by rewrite gene_count_precedence.
Qed.

(** X7: before [normalize], nothing raises: [joint_probability] returns a
    number for any three sets, [update] and the accumulation return a table
    with the same persons in the same order, and [main] is [normalize] of
    the accumulated table. *)
Theorem only_normalize_can_raise (T : Type) (A : Arith T) (people : gmap string person) :
  (∀ og tg ht, is_Some (joint_probability (T:=T) people og tg ht)) ∧
  (∀ (probs : list (string * entry T)) (hs : list hypothesis),
     ∃ probs', accumulate people probs hs = Some probs' ∧ probs'.*1 = probs.*1) ∧
  (∃ probs : list (string * entry T),
     accumulate people (init_probabilities people) (hypotheses people) = Some probs ∧
     probs.*1 = (map_to_list people).*1 ∧ main people = normalize probs).
Proof.
  assert (∀ og tg ht, is_Some (joint_probability (T:=T) people og tg ht)) as Hjp.
  { intros og tg ht. unfold joint_probability.
    destruct (foldlM_is_Some (λ (probabilities : list T) '(n, r),
                p ← person_probability n r og tg ht; Some (set_add p probabilities))
                [] (map_to_list people)) as [s ->]; [| by eexists].
    intros s [n r]. by destruct (person_probability_is_Some (T:=T) n r og tg ht) as [q ->]. }
  assert (∀ (probs : list (string * entry T)) (hs : list hypothesis),
     ∃ probs', accumulate people probs hs = Some probs' ∧ probs'.*1 = probs.*1) as Hacc.
  { intros probs hs. revert probs. unfold accumulate.
    induction hs as [|[[og tg] ht] hs IH]; intros probs; [by exists probs |].
    cbn [foldlM]. destruct (Hjp og tg ht) as [p ->]. simpl.
    destruct (update_is_Some probs og tg ht p) as (probs1 & -> & K1). simpl.
    destruct (IH probs1) as (probs' & -> & K). exists probs'. split; [done | congruence]. }
  split; [done |]. split; [done |].
  destruct (Hacc (init_probabilities people) (hypotheses people)) as (probs & Hp & K).
  exists probs. split; [done |]. split.
  - rewrite K. unfold init_probabilities. rewrite <- list_fmap_compose.
    apply list_fmap_ext. by intros _ [n r] _.
  - unfold main. by rewrite Hp.
Qed.

(** * Further properties: the table *)





Section normalize_properties.
Implicit Types (probs table : list (string * entry Q)).
Local Open Scope Q_scope.





End normalize_properties.

(** * Further properties: the result of [main] *)

(** X12: a person whose trait is observed comes out of [main] with that
    value of the trait at probability 1 and the other at 0. *)
Theorem observed_trait_is_certain (people : gmap string person) (n : string)
    (r : person) (b : bool) :
  people !! n = Some r → trait r = Some b →
  ∃ (table : list (string * entry Q)) (e : entry Q),
    main people = Some table ∧ (n, e) ∈ table ∧
    (tTrue (trait_ e) == (if b then 1 else 0) ∧
     tFalse (trait_ e) == (if b then 0 else 1))%Q.
Proof.
  intros Hr Hb. destruct (main_totals people) as (table & Hmain & Hkeys & Htot).
  assert (∃ e, (n, e) ∈ table) as [e He].
  { assert (n ∈ table.*1) as ([n' e] & -> & He)%list_elem_of_fmap; [| by exists e].
    rewrite Hkeys. apply list_elem_of_fmap. exists (n, r).
    split; [done | by apply elem_of_map_to_list]. }
  exists table, e. split_and!; [done | done | |].
  all: rewrite main_accumulated in Hmain; apply normalize_Some in Hmain.
  all: apply list_elem_of_lookup in He as [i Hi].
  all: destruct (Forall2_lookup_r _ _ _ _ _ Hmain Hi) as ([n' e'] & Hi' & Hk & _ & Ht).
  all: simpl in Hk, Ht; subst n'.
  all: apply normalize_trait_inv in Ht as (Ht0 & TT & TF).
  all: assert (observed_ok people (n, e')) as Hok
         by (eapply Forall_lookup_1; [| exact Hi'];
             apply accumulated_observed_ok;
             [rewrite hypotheses_filter; apply Forall_forall;
              by intros h [? _]%list_elem_of_filter
             | apply init_probabilities_observed_ok]).
  all: specialize (Hok r b Hr Hb); simpl in Hok.
  all: rewrite trait_total_sum in *; unfold trait_sum in *.
  all: destruct b; rewrite ?TT, ?TF.
  - by apply ratio_certain.
  - rewrite (Qplus_comm (tTrue _)) in *. by apply ratio_certain.
  - by apply ratio_certain.
  - rewrite (Qplus_comm (tTrue _)) in *. by apply ratio_certain.
Qed.

Lemma observed_trait_is_certain_witness :
  ∃ (table : list (string * entry Q)) (e : entry Q),
    main half_specified = Some table ∧ ("Harry", e) ∈ table ∧
    (tTrue (trait_ e) == 1 ∧ tFalse (trait_ e) == 0)%Q.
Proof.
  apply (observed_trait_is_certain half_specified "Harry"
           {| name := "Harry"; mother := Some "Lily"; father := None; trait := Some true |}
           true); reflexivity.
Defined.

(** X13: every value of the table returned by [main] is a probability:
    between 0 and 1. *)
Theorem main_returns_probabilities (people : gmap string person) :
  ∃ table : list (string * entry Q), main people = Some table ∧
    Forall (λ x,
      let within q := (0 <= q ∧ q <= 1)%Q in
      within (g2 (gene x.2)) ∧ within (g1 (gene x.2)) ∧ within (g0 (gene x.2)) ∧
      within (tTrue (trait_ x.2)) ∧ within (tFalse (trait_ x.2))) table.
Proof.
  destruct (main_totals people) as (table & Hmain & _ & _). exists table. split; [done |].
  rewrite main_accumulated in Hmain. apply normalize_Some in Hmain.
  pose proof (accumulated_nonnegative people _ (hypotheses people)
                (init_probabilities_nonnegative people)) as Hnn.
  apply Forall_lookup. intros i [n e] Hi.
  destruct (Forall2_lookup_r _ _ _ _ _ Hmain Hi) as ([n' e'] & Hi' & _ & Hg & Ht).
  simpl in Hg, Ht.
  apply normalize_gene_inv in Hg as (Hg0 & G2 & G1 & G0).
  apply normalize_trait_inv in Ht as (Ht0 & TT & TF).
  pose proof (Forall_lookup_1 _ _ _ _ Hnn Hi') as (N2 & N1 & N0 & NT & NF).
  cbv zeta. cbn [snd] in *. rewrite G2, G1, G0, TT, TF.
  rewrite gene_total_sum in *. rewrite trait_total_sum in *.
  unfold gene_sum, trait_sum in *.
  split_and!; apply ratio_bounds; (done || lra).
Qed.

(** X14: for a single founder whose trait is observed, the posterior of each
    gene count is the prior times the probability of the observed trait
    value given that count, divided by the sum of the three products; the
    observed trait value gets probability 1. *)
Theorem observed_founder_posterior (n : string) (b : bool) :
  let l2 := (if b then 0.65 else 0.35)%Q in
  let l1 := (if b then 0.56 else 0.44)%Q in
  let l0 := (if b then 0.01 else 0.99)%Q in
  let z := (0.01 * l2 + 0.03 * l1 + 0.96 * l0)%Q in
  ∃ e : entry Q, main (observed_founder n b) = Some [(n, e)] ∧
    (g2 (gene e) == 0.01 * l2 / z ∧ g1 (gene e) == 0.03 * l1 / z ∧
     g0 (gene e) == 0.96 * l0 / z ∧
     tTrue (trait_ e) == (if b then 1 else 0) ∧
     tFalse (trait_ e) == (if b then 0 else 1))%Q.
Proof.
  unfold main. rewrite hypotheses_observed_founder.
  unfold accumulate, joint_probability, init_probabilities, observed_founder.
  rewrite map_to_list_singleton.
  destruct b; eval_members n; (eexists; split; [vm_compute; reflexivity |]);
    vm_compute; done.
Qed.

(** X19: an empty pedigree gives the empty table, without error. *)
Theorem main_of_nobody (T : Type) (A : Arith T) :
  main (T:=T) ∅ = Some [] ∧ main (T:=T) (load_data []) = Some [].
Proof. split; reflexivity. Qed.

(** * Further properties: loading the pedigree *)

(** X15: [load_data] keeps, for each name, the record of the last row with
    that name, and nothing for a name that no row has; the record's own
    name is the key it is stored under. *)
Theorem load_data_last_row_wins (rows : list row) (n : string) :
  load_data rows !! n = person_of_row <$> last (filter (λ r, row_name r = n) rows) ∧
  (∀ p, load_data rows !! n = Some p → name p = n).
Proof.
  assert (load_data rows !! n =
          person_of_row <$> last (filter (λ r, row_name r = n) rows)) as Hlookup.
  { induction rows as [|r rows IH] using rev_ind; [done |].
    rewrite load_data_snoc, filter_app.
    destruct (decide (row_name r = n)) as [<- | Hne].
    - rewrite lookup_insert_eq, filter_cons_True, filter_nil by done. by rewrite last_snoc.
    - rewrite lookup_insert_ne, filter_cons_False, filter_nil by done. by rewrite app_nil_r. }
  split; [done |]. rewrite Hlookup. intros p (r & Hr & ->)%fmap_Some.
  apply last_Some_elem_of, list_elem_of_filter in Hr as [Hr _]. done.
Qed.

(** X16: the loader checks nothing about the parents: a row with a mother
    and a blank father is stored as it is, although the docstring asks for
    both or neither. *)
Theorem load_data_keeps_half_specified_parents (rows : list row) (r : row) :
  row_mother r ≠ "" → row_father r = "" →
  ∃ p, load_data (rows ++ [r]) !! row_name r = Some p ∧
       mother p = Some (row_mother r) ∧ father p = None ∧
       malformed (load_data (rows ++ [r])) = true.
Proof.
  intros Hm Hf. rewrite load_data_snoc. exists (person_of_row r).
  rewrite lookup_insert_eq. split; [done |].
  assert (mother (person_of_row r) = Some (row_mother r)) as Hmother.
  { simpl. unfold or_None. by destruct (String.eqb_spec (row_mother r) ""). }
  assert (father (person_of_row r) = None) as Hfather by (simpl; by rewrite Hf).
  split; [done |]. split; [done |].
  unfold malformed. apply existsb_exists. exists (row_name r, person_of_row r). split.
  - apply list_elem_of_In, elem_of_map_to_list, lookup_insert_eq.
  - rewrite Hmother, Hfather. simpl. apply orb_true_r.
Qed.

Lemma load_data_keeps_half_specified_parents_witness :
  ∃ p, load_data ([] ++ [{| row_name := "Harry"; row_mother := "Lily";
                            row_father := ""; row_trait := "1" |}]) !! "Harry" = Some p ∧
       mother p = Some "Lily" ∧ father p = None ∧
       malformed (load_data ([] ++ [{| row_name := "Harry"; row_mother := "Lily";
                                       row_father := ""; row_trait := "1" |}])) = true.
Proof.
  apply (load_data_keeps_half_specified_parents []
           {| row_name := "Harry"; row_mother := "Lily"; row_father := ""; row_trait := "1" |});
    [discriminate | reflexivity].
Defined.

(** X17: loading rows and running [main] gives a table with exactly one
    entry for each name that occurs in the rows. *)
Theorem main_of_load_data (rows : list row) :
  ∃ table : list (string * entry Q), main (load_data rows) = Some table ∧
    NoDup table.*1 ∧ ∀ n, n ∈ table.*1 ↔ n ∈ row_name <$> rows.
Proof.
  destruct (main_totals (load_data rows)) as (table & Hmain & Hkeys & _).
  exists table. split; [done |]. rewrite Hkeys. split; [apply NoDup_fst_map_to_list |].
  intros n. rewrite <- (elem_of_list_to_set (C:=gset string) n (row_name <$> rows)).
  rewrite <- dom_load_data, elem_of_dom, list_elem_of_fmap. split.
  - intros ([n' p] & -> & Hp%elem_of_map_to_list). by exists p.
  - intros [p Hp]. exists (n, p). split; [done | by apply elem_of_map_to_list].
Qed.
